(** * gexec.Session: a shallow embedding of [gexec/session.go]

    The file has three layers.

    - The Go runtime pieces the session relies on: [syscall.WaitStatus],
      [reflect.Value.IsNil], [io.MultiWriter], [exec.Cmd] and the
      [gbytes.Buffer] collaborator.
    - [Start], a sequential program over a small machine state (heap of
      commands and buffers, the sinks' observations, a journal of effects,
      the goroutines launched so far).
    - The concurrent part: [monitorForExit] and [getExitCode] as instruction
      lists run by an interleaving step relation, with the operating system
      (process exit, wait failures, output pumps) as the environment. *)

From stdpp Require Import base option list gmap.
From Stdlib Require Import ZArith Lia.

Open Scope Z_scope.

(** ** Bytes, errors, panics *)

Definition bytes := list Byte.byte.

(** Go [error] values that the model distinguishes. *)
Inductive GoError :=
| ErrShortWrite                 (* io.ErrShortWrite *)
| ErrAlreadyStarted             (* "exec: already started" *)
| ErrOS (errno : nat).          (* an error reported by the operating system *)

(** Run-time panics. *)
Inductive PanicReason :=
| NilDereference                (* invalid memory address or nil pointer dereference *)
| ReflectIsNil                  (* reflect: call of reflect.Value.IsNil on a non-nilable Value *)
| UnlockOfUnlocked.             (* sync: unlock of unlocked mutex *)

Inductive Outcome (A : Type) :=
| Ok (a : A)
| Panic (why : PanicReason).
Arguments Ok {A} a.
Arguments Panic {A} why.

(** ** syscall.WaitStatus (Linux) *)

Module syscall.

(** [type WaitStatus uint32] *)
Definition WaitStatus := Z.

Definition mask : Z := 0x7F.
Definition core : Z := 0x80.
Definition exited : Z := 0x00.
Definition stopped : Z := 0x7F.
Definition shift : Z := 8.

(** [func (w WaitStatus) Exited() bool { return w&mask == exited }] *)
Definition Exited (w : WaitStatus) : bool := Z.land w mask =? exited.

(** [func (w WaitStatus) Signaled() bool
      { return w&mask != stopped && w&mask != exited }] *)
Definition Signaled (w : WaitStatus) : bool :=
  negb (Z.land w mask =? stopped) && negb (Z.land w mask =? exited).

(** [func (w WaitStatus) ExitStatus() int
      { if !w.Exited() { return -1 }; return int(w>>shift) & 0xFF }] *)
Definition ExitStatus (w : WaitStatus) : Z :=
  if negb (Exited w) then -1 else Z.land (Z.shiftr w shift) 0xFF.

(** The status the kernel reports for [exit(code)] and for death by
    signal [sig] (1..127 except 0x7F, optionally with the core bit). *)
Definition of_exit (code : Z) : WaitStatus := Z.shiftl (Z.land code 0xFF) shift.
Definition of_signal (sig : Z) (dumped : bool) : WaitStatus :=
  Z.lor (Z.land sig mask) (if dumped then core else 0).

End syscall.

(** ** reflect: kinds and IsNil *)

Module reflect.

Inductive Kind :=
| Invalid | Bool
| Int | Int8 | Int16 | Int32 | Int64
| Uint | Uint8 | Uint16 | Uint32 | Uint64 | Uintptr
| Float32 | Float64 | Complex64 | Complex128
| Array | Chan | Func | Interface | Map | Pointer | Slice
| String | Struct | UnsafePointer.

(** What [reflect.ValueOf] extracts from a non-nil interface value: the
    kind of the dynamic type and whether the data word is the nil
    pointer. *)
Record Value := { kind : Kind; word_is_nil : bool }.

(** [IsNil] answers for chan, func, interface, map, pointer, slice and
    unsafe pointer, and panics for every other kind. *)
Definition nilable (k : Kind) : bool :=
  match k with
  | Chan | Func | Interface | Map | Pointer | Slice | UnsafePointer => true
  | _ => false
  end.

Definition IsNil (v : Value) : Outcome bool :=
  if nilable (kind v) then Ok (word_is_nil v) else Panic ReflectIsNil.

End reflect.

(** ** Writers *)

Definition Addr := nat.
Definition SinkId := nat.

(** A non-nil [io.Writer] interface value supplied by the caller: its dynamic
    type's kind, whether the dynamic value is a nil pointer (map, ...), and
    the external sink its [Write] method feeds. *)
Record DynWriter := {
  dyn_kind : reflect.Kind;
  dyn_nil : bool;
  dyn_sink : SinkId
}.

(** An [io.Writer] argument: [None] is the nil interface. *)
Definition IoWriter := option DynWriter.

Definition ValueOf (d : DynWriter) : reflect.Value :=
  {| reflect.kind := dyn_kind d; reflect.word_is_nil := dyn_nil d |}.

(** Destinations a stream can be attached to. [Multi] is [*io.multiWriter]. *)
Inductive Dest :=
| DBuffer (b : Addr)            (* a *gbytes.Buffer *)
| DExternal (d : DynWriter).    (* a caller-supplied writer *)

Inductive Writer :=
| Single (d : Dest)
| Multi (ds : list Dest).

(** ** exec.Cmd *)

(** A running child: the destinations its output pumps copy to, fixed when
    the process is started. *)
Record Process := {
  pump_out : option Writer;
  pump_err : option Writer
}.

Record Cmd := {
  Stdout : option Writer;
  Stderr : option Writer;
  Proc : option Process;                       (* Cmd.Process, nil until started *)
  ProcessState : option syscall.WaitStatus     (* nil until a wait succeeded *)
}.

Definition set_Stdout (w : option Writer) (c : Cmd) : Cmd :=
  {| Stdout := w; Stderr := Stderr c; Proc := Proc c; ProcessState := ProcessState c |}.
Definition set_Stderr (w : option Writer) (c : Cmd) : Cmd :=
  {| Stdout := Stdout c; Stderr := w; Proc := Proc c; ProcessState := ProcessState c |}.
Definition set_Proc (p : option Process) (c : Cmd) : Cmd :=
  {| Stdout := Stdout c; Stderr := Stderr c; Proc := p; ProcessState := ProcessState c |}.
Definition set_ProcessState (s : option syscall.WaitStatus) (c : Cmd) : Cmd :=
  {| Stdout := Stdout c; Stderr := Stderr c; Proc := Proc c; ProcessState := s |}.

(** ** Instructions of the two session methods *)

Inductive Instr :=
| IWait            (* s.Command.Wait() *)
| ILock            (* s.lock.Lock() *)
| IStoreExit       (* s.exitCode = s.Command.ProcessState.Sys().(syscall.WaitStatus).ExitStatus() *)
| IUnlock          (* s.lock.Unlock() *)
| ILoadExit        (* result = s.exitCode *)
| IReturn.         (* return result *)

Record Thread := {
  code : list Instr;          (* what is left to run *)
  result : option Z           (* the evaluated return value, once there is one *)
}.

Definition spawn (prog : list Instr) : Thread := {| code := prog; result := None |}.

(** ** The machine state *)

(** What happened, in order. *)
Inductive Effect :=
| EfNewBuffer (b : Addr)
| EfAttachStdout (c : Addr) (w : Writer)
| EfAttachStderr (c : Addr) (w : Writer)
| EfStartAttempt (c : Addr) (err : option GoError)
| EfGo (prog : list Instr)
| EfAppend (b : Addr) (p : bytes)          (* a buffer appended [p] *)
| EfOffer (s : SinkId) (p : bytes).        (* a sink's Write was called with [p] *)

(** The result of a [Write] call: [(n, err)]. *)
Definition WriteResult := (nat * option GoError)%type.

Record Machine := {
  cmds : gmap Addr Cmd;                    (* the *exec.Cmd objects *)
  bufs : gmap Addr bytes;                  (* the *gbytes.Buffer contents *)
  next : Addr;                             (* allocation pointer *)
  observed : gmap SinkId (list bytes);     (* per sink: the chunks it was handed *)
  reply : SinkId -> list bytes -> bytes -> WriteResult;
                                           (* per sink: what its Write answers, given
                                              what it was handed before and the chunk *)
  journal : list Effect;
  goroutines : list Thread
}.

Definition with_cmds (f : gmap Addr Cmd -> gmap Addr Cmd) (m : Machine) : Machine :=
  {| cmds := f (cmds m); bufs := bufs m; next := next m;
     observed := observed m; reply := reply m; journal := journal m; goroutines := goroutines m |}.
Definition with_bufs (f : gmap Addr bytes -> gmap Addr bytes) (m : Machine) : Machine :=
  {| cmds := cmds m; bufs := f (bufs m); next := next m;
     observed := observed m; reply := reply m; journal := journal m; goroutines := goroutines m |}.
Definition with_next (n : Addr) (m : Machine) : Machine :=
  {| cmds := cmds m; bufs := bufs m; next := n;
     observed := observed m; reply := reply m; journal := journal m; goroutines := goroutines m |}.
Definition with_observed (f : gmap SinkId (list bytes) -> gmap SinkId (list bytes))
    (m : Machine) : Machine :=
  {| cmds := cmds m; bufs := bufs m; next := next m;
     observed := f (observed m); reply := reply m; journal := journal m; goroutines := goroutines m |}.
Definition log (e : Effect) (m : Machine) : Machine :=
  {| cmds := cmds m; bufs := bufs m; next := next m;
     observed := observed m; reply := reply m; journal := journal m ++ [e]; goroutines := goroutines m |}.
Definition with_goroutines (f : list Thread -> list Thread) (m : Machine) : Machine :=
  {| cmds := cmds m; bufs := bufs m; next := next m;
     observed := observed m; reply := reply m; journal := journal m; goroutines := f (goroutines m) |}.

Definition contents (m : Machine) (b : Addr) : bytes := default [] (bufs m !! b).
Definition seen (m : Machine) (s : SinkId) : list bytes := default [] (observed m !! s).

(** ** gbytes.Buffer *)

Module gbytes.

(** Modelled from the spec: [gbytes.NewBuffer], which is not among the
    sources. "The core requires a constructor producing an empty
    instance": a fresh address holding no bytes. *)
Definition NewBuffer (m : Machine) : Addr * Machine :=
  let b := next m in
  (b, log (EfNewBuffer b) (with_next (S b) (with_bufs <[b := []]> m))).

(** Modelled from the spec: [Buffer.Write] of gbytes, which is not among
    the sources. It "implements the standard writable-stream contract
    (accepts byte chunks, appends them, thread-safe)": the chunk is
    appended whole and the call reports [len(p), nil]. *)
Definition Write (b : Addr) (p : bytes) (m : Machine) : WriteResult * Machine :=
  ((length p, None),
   log (EfAppend b p) (with_bufs <[b := contents m b ++ p]> m)).

End gbytes.

(** ** io.Writer and io.MultiWriter *)

Module io.

(** A caller-supplied writer: the sink sees the chunk and answers as it
    pleases. *)
Definition sink_write (d : DynWriter) (p : bytes) (m : Machine) : WriteResult * Machine :=
  let s := dyn_sink d in
  (reply m s (seen m s) p,
   log (EfOffer s p) (with_observed <[s := seen m s ++ [p]]> m)).

Definition dest_write (d : Dest) (p : bytes) (m : Machine) : WriteResult * Machine :=
  match d with
  | DBuffer b => gbytes.Write b p m
  | DExternal x => sink_write x p m
  end.

(** [func (t *multiWriter) Write(p []byte) (n int, err error)]:
    each writer in turn; stop at the first error or short write. *)
Fixpoint multi_write (ds : list Dest) (p : bytes) (m : Machine) : WriteResult * Machine :=
  match ds with
  | [] => ((length p, None), m)
  | d :: ds' =>
      let '((n, err), m1) := dest_write d p m in
      match err with
      | Some e => ((n, Some e), m1)
      | None =>
          if Nat.eqb n (length p) then multi_write ds' p m1
          else ((n, Some ErrShortWrite), m1)
      end
  end.

Definition write (w : Writer) (p : bytes) (m : Machine) : WriteResult * Machine :=
  match w with
  | Single d => dest_write d p m
  | Multi ds => multi_write ds p m
  end.

(** [func MultiWriter(writers ...Writer) Writer]: the writers of an
    argument that is itself a multiWriter are spliced in. *)
Definition dests (w : Writer) : list Dest :=
  match w with
  | Single d => [d]
  | Multi ds => ds
  end.

Definition MultiWriter (ws : list Writer) : Writer :=
  Multi (concat (map dests ws)).

(** A stream of chunks written one after the other, whatever each call
    returns. *)
Fixpoint write_all (w : Writer) (ps : list bytes) (m : Machine) : Machine :=
  match ps with
  | [] => m
  | p :: ps' => write_all w ps' (snd (write w p m))
  end.

End io.

(** ** exec.Cmd.Start *)

Module exec.

(** [func (c *Cmd) Start() error]. [launch] is what the operating system
    answers to the attempt to create the process. A command that was
    started before is refused; on success the output pumps are bound to
    the Stdout and Stderr the command has at this moment. *)
Definition Start (launch : option GoError) (c : Cmd) : Cmd * option GoError :=
  match Proc c with
  | Some _ => (c, Some ErrAlreadyStarted)
  | None =>
      match launch with
      | Some e => (c, Some e)
      | None =>
          (set_Proc (Some {| pump_out := Stdout c; pump_err := Stderr c |}) c, None)
      end
  end.

End exec.

(** ** The session *)

(** Who runs an instruction: a goroutine launched with [go] (numbered in
    launch order) or one of the test's own threads calling into the
    session. *)
Inductive Tid :=
| TGo (k : nat)
| TCaller (i : nat).

#[global] Instance Tid_eq_dec : EqDecision Tid.
Proof. solve_decision. Defined.

(** [sync.Mutex]: unlocked, or locked. Go's mutex does not record an owner;
    the model remembers who locked it so that theorems can speak of it. *)
Definition Mutex := option Tid.

Record Session := {
  Command : Addr;      (* *exec.Cmd *)
  Out : Addr;          (* *gbytes.Buffer connected to the command's stdout *)
  Err : Addr;          (* *gbytes.Buffer connected to the command's stderr *)
  lock : Mutex;
  exitCode : Z
}.

Definition set_lock (l : Mutex) (s : Session) : Session :=
  {| Command := Command s; Out := Out s; Err := Err s; lock := l; exitCode := exitCode s |}.
Definition set_exitCode (v : Z) (s : Session) : Session :=
  {| Command := Command s; Out := Out s; Err := Err s; lock := lock s; exitCode := v |}.

(** [func (s *Session) monitorForExit()], lines 82-87. *)
Definition monitorForExit : list Instr := [IWait; ILock; IStoreExit; IUnlock].

(** [func (s *Session) getExitCode() int], lines 89-94. The deferred
    [Unlock] runs after the result has been evaluated and before the
    function returns. *)
Definition getExitCode : list Instr := [ILock; ILoadExit; IUnlock; IReturn].

(** ** Sequential programs over the machine: state and panics *)

Definition M (A : Type) : Type := Machine -> Outcome (A * Machine).

Definition ret {A} (a : A) : M A := fun m => Ok (a, m).

Definition bind {A B} (x : M A) (k : A -> M B) : M B :=
  fun m => match x m with
           | Ok (a, m1) => k a m1
           | Panic why => Panic why
           end.

Notation "x <- c1 ;; c2" := (bind c1 (fun x => c2))
  (at level 100, c1 at next level, right associativity).
Notation "c1 ;;; c2" := (bind c1 (fun _ => c2))
  (at level 100, right associativity).

Definition lift {A} (o : Outcome A) : M A :=
  fun m => match o with
           | Ok a => Ok (a, m)
           | Panic why => Panic why
           end.

Definition NewBuffer : M Addr := fun m => Ok (gbytes.NewBuffer m).

(** [w != nil && !reflect.ValueOf(w).IsNil()] *)
Definition usable (w : IoWriter) : Outcome bool :=
  match w with
  | None => Ok false
  | Some d =>
      match reflect.IsNil (ValueOf d) with
      | Ok isnil => Ok (negb isnil)
      | Panic why => Panic why
      end
  end.

(** [command.Stdout = w]: a store through the pointer [c]. *)
Definition assign_Stdout (c : Addr) (w : Writer) : M unit :=
  fun m => match cmds m !! c with
           | None => Panic NilDereference
           | Some cmd =>
               Ok (tt, log (EfAttachStdout c w)
                         (with_cmds <[c := set_Stdout (Some w) cmd]> m))
           end.

(** [command.Stderr = w] *)
Definition assign_Stderr (c : Addr) (w : Writer) : M unit :=
  fun m => match cmds m !! c with
           | None => Panic NilDereference
           | Some cmd =>
               Ok (tt, log (EfAttachStderr c w)
                         (with_cmds <[c := set_Stderr (Some w) cmd]> m))
           end.

(** [command.Start()] *)
Definition command_Start (launch : option GoError) (c : Addr) : M (option GoError) :=
  fun m => match cmds m !! c with
           | None => Panic NilDereference
           | Some cmd =>
               let '(cmd1, err) := exec.Start launch cmd in
               Ok (err, log (EfStartAttempt c err) (with_cmds <[c := cmd1]> m))
           end.

(** [go f()] *)
Definition go (prog : list Instr) : M unit :=
  fun m => Ok (tt, log (EfGo prog) (with_goroutines (fun gs => gs ++ [spawn prog]) m)).

(** The argument handed to [io.MultiWriter] for a caller's writer. *)
Definition external (w : IoWriter) : list Writer :=
  match w with
  | Some d => [Single (DExternal d)]
  | None => []
  end.

(** [func Start(command, outWriter, errWriter)] returning the session
    pointer and an error, lines 50-80. [launch] is the operating system's
    answer to the start attempt. *)
Definition Start (launch : option GoError) (command : Addr)
    (outWriter errWriter : IoWriter) : M (Session * option GoError) :=
  out <- NewBuffer ;;
  err <- NewBuffer ;;
  let session :=
    {| Command := command; Out := out; Err := err; lock := None; exitCode := -1 |} in
  let commandOut := Single (DBuffer (Out session)) in
  let commandErr := Single (DBuffer (Err session)) in
  wrapOut <- lift (usable outWriter) ;;
  let commandOut :=
    if wrapOut : bool then io.MultiWriter (commandOut :: external outWriter) else commandOut in
  wrapErr <- lift (usable errWriter) ;;
  let commandErr :=
    if wrapErr : bool then io.MultiWriter (commandErr :: external errWriter) else commandErr in
  assign_Stdout command commandOut ;;;
  assign_Stderr command commandErr ;;;
  err <- command_Start launch command ;;
  (match err with
   | None => go monitorForExit
   | Some _ => ret tt
   end) ;;;
  ret (session, err).

(** ** The concurrent world *)

(** The child process as the operating system sees it. *)
Inductive OsProc :=
| PNone                                   (* no process was created *)
| PRunning
| PExited (ws : syscall.WaitStatus).

Inductive Stream := StdoutStream | StderrStream.

(** Labels of the transitions. An access to the exit-code store records who
    held the lock at that moment. *)
Inductive Event :=
| EvCall (t : Tid)                                   (* getExitCode is entered *)
| EvLock (t : Tid)
| EvUnlock (t : Tid)
| EvRead (t : Tid) (v : Z) (holder : Mutex)          (* s.exitCode was read *)
| EvWrite (t : Tid) (v : Z) (holder : Mutex)         (* s.exitCode was assigned *)
| EvReturn (t : Tid) (v : Z)                         (* getExitCode returned v *)
| EvWait (t : Tid) (st : option syscall.WaitStatus)  (* Wait came back *)
| EvPanic (t : Tid) (why : PanicReason)
| EvExit (ws : syscall.WaitStatus)                   (* the child terminated *)
| EvPump (s : Stream) (p : bytes).                   (* the child's output reached its destination *)

Record World := {
  mach : Machine;
  sess : Session;
  proc : OsProc;
  callers : list Thread;
  out_open : bool;       (* the stdout pump is still copying *)
  err_open : bool;       (* the stderr pump is still copying *)
  crashed : bool         (* an unrecovered panic ended the program *)
}.

(** One instruction, run by thread [t] whose result register holds [r].
    [waited] is what the operating system's wait yields when the
    instruction is [IWait]: the status, or nothing when the wait failed.
    [None] means the thread cannot move (the mutex is taken). *)
Definition exec_instr (t : Tid) (i : Instr) (waited : option syscall.WaitStatus)
    (m : Machine) (s : Session) (r : option Z)
    : option (Event * Outcome (Machine * Session * option Z)) :=
  match i with
  | IWait =>
      (* Cmd.Wait stores the process state it obtained, nil when the
         operating system's wait failed, and returns an error in that case
         as well as for an unsuccessful exit; the session drops it. *)
      match cmds m !! Command s with
      | None => Some (EvPanic t NilDereference, Panic NilDereference)
      | Some c =>
          match Proc c with
          | None => Some (EvWait t None, Ok (m, s, r))      (* "exec: not started" *)
          | Some _ =>
              Some (EvWait t waited,
                    Ok (with_cmds <[Command s := set_ProcessState waited c]> m, s, r))
          end
      end
  | ILock =>
      match lock s with
      | None => Some (EvLock t, Ok (m, set_lock (Some t) s, r))
      | Some _ => None
      end
  | IStoreExit =>
      match cmds m !! Command s with
      | None => Some (EvPanic t NilDereference, Panic NilDereference)
      | Some c =>
          match ProcessState c with
          | None => Some (EvPanic t NilDereference, Panic NilDereference)
          | Some ws =>
              Some (EvWrite t (syscall.ExitStatus ws) (lock s),
                    Ok (m, set_exitCode (syscall.ExitStatus ws) s, r))
          end
      end
  | IUnlock =>
      match lock s with
      | Some _ => Some (EvUnlock t, Ok (m, set_lock None s, r))
      | None => Some (EvPanic t UnlockOfUnlocked, Panic UnlockOfUnlocked)
      end
  | ILoadExit =>
      Some (EvRead t (exitCode s) (lock s), Ok (m, s, Some (exitCode s)))
  | IReturn =>
      Some (EvReturn t (default 0 r), Ok (m, s, None))
  end.

(** Whether the wait can come back with [waited]: with a status only once
    the child has terminated with it; with a failure at any time. *)
Definition wait_ready (i : Instr) (p : OsProc) (waited : option syscall.WaitStatus) : Prop :=
  match i, waited with
  | IWait, Some ws => p = PExited ws
  | _, _ => True
  end.

Definition thread_of (w : World) (t : Tid) : option Thread :=
  match t with
  | TGo k => goroutines (mach w) !! k
  | TCaller i => callers w !! i
  end.

Definition set_thread (t : Tid) (th : Thread) (m : Machine) (cs : list Thread)
    : Machine * list Thread :=
  match t with
  | TGo k => (with_goroutines <[k := th]> m, cs)
  | TCaller i => (m, <[i := th]> cs)
  end.

(** The world after thread [t] ran an instruction with outcome [o], the
    rest of its code being [rest]. *)
Definition after (w : World) (t : Tid) (rest : list Instr)
    (o : Outcome (Machine * Session * option Z)) : World :=
  match o with
  | Ok (m, s, r) =>
      let '(m1, cs) := set_thread t {| code := rest; result := r |} m (callers w) in
      {| mach := m1; sess := s; proc := proc w; callers := cs;
         out_open := out_open w; err_open := err_open w; crashed := false |}
  | Panic _ =>
      {| mach := mach w; sess := sess w; proc := proc w; callers := callers w;
         out_open := out_open w; err_open := err_open w; crashed := true |}
  end.

Definition succeeded (res : WriteResult) (p : bytes) : bool :=
  match res with
  | (n, None) => Nat.eqb n (length p)
  | (_, Some _) => false
  end.

(** The destination the child's stream was bound to when it was started. *)
Definition pump_dest (w : World) (st : Stream) : option Writer :=
  c ← cmds (mach w) !! Command (sess w);
  pr ← Proc c;
  match st with
  | StdoutStream => pump_out pr
  | StderrStream => pump_err pr
  end.

Definition pump_open (w : World) (st : Stream) : bool :=
  match st with
  | StdoutStream => out_open w
  | StderrStream => err_open w
  end.

(** The copy loop behind a stream hands [p] to the destination and stops
    for good when the write fails. *)
Definition pumped (w : World) (st : Stream) (dst : Writer) (p : bytes) : World :=
  let '(res, m1) := io.write dst p (mach w) in
  {| mach := m1; sess := sess w; proc := proc w; callers := callers w;
     out_open := match st with StdoutStream => succeeded res p | _ => out_open w end;
     err_open := match st with StderrStream => succeeded res p | _ => err_open w end;
     crashed := false |}.

Definition exited_with (w : World) (ws : syscall.WaitStatus) : World :=
  {| mach := mach w; sess := sess w; proc := PExited ws; callers := callers w;
     out_open := out_open w; err_open := err_open w; crashed := false |}.

Definition called (w : World) (i : nat) : World :=
  {| mach := mach w; sess := sess w; proc := proc w;
     callers := <[i := spawn getExitCode]> (callers w);
     out_open := out_open w; err_open := err_open w; crashed := false |}.

Inductive step : World -> Event -> World -> Prop :=
| step_instr w t th i rest waited e o :
    crashed w = false ->
    thread_of w t = Some th ->
    code th = i :: rest ->
    wait_ready i (proc w) waited ->
    exec_instr t i waited (mach w) (sess w) (result th) = Some (e, o) ->
    step w e (after w t rest o)
| step_call w i th :
    crashed w = false ->
    callers w !! i = Some th ->
    code th = [] ->
    step w (EvCall (TCaller i)) (called w i)
| step_exit w ws :
    crashed w = false ->
    proc w = PRunning ->
    0 <= ws < 2 ^ 32 ->
    step w (EvExit ws) (exited_with w ws)
| step_pump w st dst p :
    crashed w = false ->
    pump_open w st = true ->
    pump_dest w st = Some dst ->
    step w (EvPump st p) (pumped w st dst p).

(** Executions: the events in the order they happened. *)
Inductive run : World -> list Event -> World -> Prop :=
| run_nil w : run w [] w
| run_snoc w tr w1 e w2 : run w tr w1 -> step w1 e w2 -> run w (tr ++ [e]) w2.

(** The world in which [Start] hands the session to a test with [n]
    threads: the goroutines it launched are in the machine, and the child
    runs exactly when the command holds a process. *)
Definition boot (m : Machine) (s : Session) (n : nat) : World :=
  {| mach := m; sess := s;
     proc := match cmds m !! Command s ≫= Proc with
             | Some _ => PRunning
             | None => PNone
             end;
     callers := replicate n (spawn []);
     out_open := true; err_open := true; crashed := false |}.

(** The destination [Start] computes for a stream whose capture buffer is
    [b], given the caller's writer and the verdict of the nil checks. *)
Definition effective (b : Addr) (w : IoWriter) (wrap : bool) : Writer :=
  if wrap then io.MultiWriter (Single (DBuffer b) :: external w) else Single (DBuffer b).

(** What writing the chunks [ps] through a fan-out of buffer [b] and sink
    [sk] leaves in the journal: per chunk, the buffer's append and then the
    sink's call. *)
Definition deliveries (b : Addr) (sk : SinkId) (ps : list bytes) : list Effect :=
  flat_map (fun p => [EfAppend b p; EfOffer sk p]) ps.

(** [dst] duplicates a stream to buffer [b] and sink [sk]: from any machine
    state, after the chunks [ps] were written to it one by one, the buffer
    has grown by their bytes, the sink has been handed exactly these chunks,
    and each chunk reached the buffer before it reached the sink. *)
Definition fans_out (dst : Writer) (b : Addr) (sk : SinkId) : Prop :=
  forall (ps : list bytes) (m1 : Machine),
    let m2 := io.write_all dst ps m1 in
    contents m2 b = contents m1 b ++ concat ps /\
    seen m2 sk = seen m1 sk ++ ps /\
    journal m2 = journal m1 ++ deliveries b sk ps.

(** The chunks of stream [st] that the pumps handed over during a run. *)
Definition chunks (st : Stream) (tr : list Event) : list bytes :=
  flat_map (fun e => match e, st with
                     | EvPump StdoutStream p, StdoutStream => [p]
                     | EvPump StderrStream p, StderrStream => [p]
                     | _, _ => []
                     end) tr.

(** ** Vocabulary for the invariants *)

(** The program points of a method: its code and every tail of it. *)
Fixpoint tails {A} (l : list A) : list (list A) :=
  match l with
  | [] => [[]]
  | _ :: l' => l :: tails l'
  end.

(** A thread is between its [Lock] and its [Unlock] when its next
    instruction is the store, the load or the unlock. *)
Definition holding (cd : list Instr) : bool :=
  match cd with
  | IStoreExit :: _ | ILoadExit :: _ | IUnlock :: _ => true
  | _ => false
  end.

Definition is_write (e : Event) : bool :=
  match e with
  | EvWrite _ _ _ => true
  | _ => false
  end.

(** An access to the store is well locked when the thread that makes it
    holds the mutex. *)
Definition well_locked (e : Event) : Prop :=
  match e with
  | EvRead t _ h | EvWrite t _ h => h = Some t
  | _ => True
  end.

(** The watcher has assigned the store: it is at its [Unlock] or done. *)
Definition written (w : World) : bool :=
  match goroutines (mach w) with
  | [th] => match code th with
            | [IUnlock] | [] => true
            | _ => false
            end
  | _ => false
  end.

(** The store and its history. Before the watcher's assignment the store
    holds -1, nothing was written and every read saw -1; afterwards there is
    exactly one write, by the watcher under the lock, of the exit status of
    the state the child terminated with, reads before it saw -1 and reads
    after it saw that status. *)
Definition store_inv (tr : list Event) (w : World) : Prop :=
  if written w then
    exists j ws,
      proc w = PExited ws /\
      exitCode (sess w) = syscall.ExitStatus ws /\
      tr !! j = Some (EvWrite (TGo 0) (syscall.ExitStatus ws) (Some (TGo 0))) /\
      (forall i e, tr !! i = Some e -> is_write e = true -> i = j) /\
      (forall i t v h, tr !! i = Some (EvRead t v h) ->
         ((i < j)%nat -> v = -1) /\ ((j < i)%nat -> v = syscall.ExitStatus ws))
  else
    exitCode (sess w) = -1 /\
    (forall i e, tr !! i = Some e -> is_write e = false) /\
    (forall i t v h, tr !! i = Some (EvRead t v h) -> v = -1).

(** Every value [getExitCode] returned was read from the store under the
    lock by the thread that returned it, before the return and after every
    earlier entry of that thread into [getExitCode] (so, during this very
    call). *)
Definition ret_inv (tr : list Event) : Prop :=
  forall i t v, tr !! i = Some (EvReturn t v) ->
    exists k, (k < i)%nat /\ tr !! k = Some (EvRead t v (Some t)) /\
              forall a, (a < i)%nat -> tr !! a = Some (EvCall t) -> (a < k)%nat.

(** A caller past its load carries in its result register a value it read
    under the lock. *)
Definition res_inv (tr : list Event) (cs : list Thread) : Prop :=
  forall i th, cs !! i = Some th ->
    code th = [IUnlock; IReturn] \/ code th = [IReturn] ->
    exists v k, result th = Some v /\
                tr !! k = Some (EvRead (TCaller i) v (Some (TCaller i))) /\
                forall a, tr !! a = Some (EvCall (TCaller i)) -> (a < k)%nat.

(** Mutual exclusion: a thread is inside its critical section exactly when
    the mutex is locked by it. *)
Definition lock_inv (w : World) : Prop :=
  forall t th, thread_of w t = Some th ->
    (holding (code th) = true <-> lock (sess w) = Some t).

(** The command the session points to exists; it holds a process whenever
    a watcher was launched; and once the watcher is past its wait, a
    process state in the command is the state the child terminated with. *)
Definition cmd_inv (w : World) : Prop :=
  exists cmd,
    cmds (mach w) !! Command (sess w) = Some cmd /\
    (goroutines (mach w) <> [] -> is_Some (Proc cmd)) /\
    (forall th ws, goroutines (mach w) = [th] -> code th <> monitorForExit ->
       ProcessState cmd = Some ws -> proc w = PExited ws).

(** A locked mutex was locked by a thread of this world. *)
Definition owner_inv (w : World) : Prop :=
  forall t, lock (sess w) = Some t -> is_Some (thread_of w t).

(** The watcher waits once, at its first instruction; and once its wait has
    failed the command holds no process state and the store is not
    assigned. *)
Definition wait_inv (tr : list Event) (w : World) : Prop :=
  (forall th st, goroutines (mach w) = [th] -> code th = monitorForExit ->
     EvWait (TGo 0) st ∉ tr) /\
  (EvWait (TGo 0) None ∈ tr ->
     written w = false /\
     (cmds (mach w) !! Command (sess w)) ≫= ProcessState = None).

Record Inv (tr : list Event) (w : World) : Prop := {
  inv_go :
    goroutines (mach w) = [] \/
    exists th, goroutines (mach w) = [th] /\ code th ∈ tails monitorForExit;
  inv_callers :
    forall i th, callers w !! i = Some th -> code th ∈ tails getExitCode;
  inv_lock : lock_inv w;
  inv_cmd : cmd_inv w;
  inv_store : store_inv tr w;
  inv_locked : Forall well_locked tr;
  inv_exit : forall ws, proc w = PExited ws <-> EvExit ws ∈ tr;
  inv_ret : ret_inv tr;
  inv_res : res_inv tr (callers w);
  inv_owner : owner_inv w;
  inv_wait : wait_inv tr w
}.

(** ** Schedules: running the world *)

(** What may happen next: a thread runs its next instruction (for a wait,
    with what the wait yields), a caller enters [getExitCode], the child
    terminates, or a pump hands over a chunk. *)
Inductive Choice :=
| Run (t : Tid) (waited : option syscall.WaitStatus)
| Call (i : nat)
| Exit (ws : syscall.WaitStatus)
| Pump (st : Stream) (p : bytes).

Definition wait_readyb (i : Instr) (p : OsProc) (waited : option syscall.WaitStatus) : bool :=
  match i, waited with
  | IWait, Some ws =>
      match p with
      | PExited ws' => ws' =? ws
      | _ => false
      end
  | _, _ => true
  end.

(** The transition a choice selects, when it is enabled. *)
Definition perform (w : World) (ch : Choice) : option (Event * World) :=
  if crashed w then None else
  match ch with
  | Run t waited =>
      match thread_of w t with
      | Some th =>
          match code th with
          | i :: rest =>
              if wait_readyb i (proc w) waited then
                match exec_instr t i waited (mach w) (sess w) (result th) with
                | Some (e, o) => Some (e, after w t rest o)
                | None => None
                end
              else None
          | [] => None
          end
      | None => None
      end
  | Call i =>
      match callers w !! i with
      | Some th =>
          match code th with
          | [] => Some (EvCall (TCaller i), called w i)
          | _ :: _ => None
          end
      | None => None
      end
  | Exit ws =>
      match proc w with
      | PRunning =>
          if (0 <=? ws) && (ws <? 2 ^ 32) then Some (EvExit ws, exited_with w ws) else None
      | _ => None
      end
  | Pump st p =>
      if pump_open w st then
        match pump_dest w st with
        | Some dst => Some (EvPump st p, pumped w st dst p)
        | None => None
        end
      else None
  end.

Fixpoint perform_all (w : World) (chs : list Choice) : option (list Event * World) :=
  match chs with
  | [] => Some ([], w)
  | ch :: chs' =>
      match perform w ch with
      | Some (e, w1) =>
          match perform_all w1 chs' with
          | Some (tr, w2) => Some (e :: tr, w2)
          | None => None
          end
      | None => None
      end
  end.

(** The thread a transition belongs to; the child's termination and its
    output belong to no thread. *)
Definition actor (e : Event) : option Tid :=
  match e with
  | EvCall t | EvLock t | EvUnlock t | EvRead t _ _ | EvWrite t _ _
  | EvReturn t _ | EvWait t _ | EvPanic t _ => Some t
  | EvExit _ | EvPump _ _ => None
  end.

(** The transitions that depend on the child: its termination, a wait
    coming back, its output. *)
Definition process_event (e : Event) : bool :=
  match e with
  | EvExit _ | EvWait _ _ | EvPump _ _ => true
  | _ => false
  end.

(** The pumps stay bound to the destinations fixed at start, and each
    capture buffer holds exactly what its pump handed over. *)
Definition capture_inv (c out err : Addr) (dout derr : Writer)
    (tr : list Event) (w : World) : Prop :=
  Command (sess w) = c /\
  (cmds (mach w) !! c) ≫= Proc = Some {| pump_out := Some dout; pump_err := Some derr |} /\
  contents (mach w) out = concat (chunks StdoutStream tr) /\
  contents (mach w) err = concat (chunks StderrStream tr).

(** ** Vocabulary for the further properties *)

(** Buffer and sink traffic in a journal. *)
Definition is_io (e : Effect) : bool :=
  match e with
  | EfAppend _ _ | EfOffer _ _ => true
  | _ => false
  end.

(** The events of thread [t] in a run, in order. *)
Definition by_thread (t : Tid) (tr : list Event) : list Event :=
  filter (fun e => actor e = Some t) tr.

(** What the watcher does when its wait comes back with [st]: lines 83 to
    86, cut short by the panic of line 85 when there is no process state. *)
Definition watcher_script (st : option syscall.WaitStatus) : list Event :=
  [EvWait (TGo 0) st; EvLock (TGo 0)] ++
  match st with
  | Some ws => [EvWrite (TGo 0) (syscall.ExitStatus ws) (Some (TGo 0)); EvUnlock (TGo 0)]
  | None => [EvPanic (TGo 0) NilDereference]
  end.

(** How far the watcher [th] has come in its script. *)
Definition progress (w : World) (th : Thread) : nat :=
  (4 - length (code th) + (if crashed w then 1 else 0))%nat.

(** The watcher is the only goroutine that ever acts; what it did so far is
    the part of its script that its program point tells; past its wait the
    command holds what the wait yielded; and the program has crashed only
    through the watcher's nil dereference. *)
Definition watcher_inv (tr : list Event) (w : World) : Prop :=
  (forall k, k <> 0%nat -> by_thread (TGo k) tr = []) /\
  (goroutines (mach w) = [] -> crashed w = false /\ by_thread (TGo 0) tr = []) /\
  (crashed w = true -> last tr = Some (EvPanic (TGo 0) NilDereference)) /\
  (forall th, goroutines (mach w) = [th] ->
     exists st,
       by_thread (TGo 0) tr = take (progress w th) (watcher_script st) /\
       (code th <> monitorForExit ->
          (cmds (mach w) !! Command (sess w)) ≫= ProcessState = st) /\
       (crashed w = true -> st = None /\ code th = [IStoreExit; IUnlock]) /\
       ((length (code th) <= 1)%nat -> is_Some st)).


(** The sink a caller's writer feeds, when [Start] wires it in: the writer
    is a non-nil interface that does not hold a nil pointer. *)
Definition sink_of (w : IoWriter) : option SinkId :=
  match w with
  | Some d => if dyn_nil d then None else Some (dyn_sink d)
  | None => None
  end.

(** The chunks a run hands to sink [sk] when the stdout stream feeds the
    sink [so] and the stderr stream the sink [se]. *)
Definition offered (so se : option SinkId) (sk : SinkId) (tr : list Event) : list bytes :=
  flat_map (fun e => match e with
                     | EvPump StdoutStream p => if decide (so = Some sk) then [p] else []
                     | EvPump StderrStream p => if decide (se = Some sk) then [p] else []
                     | _ => []
                     end) tr.

Definition stream_sink (so se : option SinkId) (st : Stream) : option SinkId :=
  match st with
  | StdoutStream => so
  | StderrStream => se
  end.

(** The sink of stream [st], if any, took the chunk [p] whole when it was
    handed over as the [i]th event of the run: its [Write], called with
    [p] after all it had been handed before, answered [len(p), nil]. *)
Definition accepted (m : Machine) (so se : option SinkId) (tr : list Event)
    (st : Stream) (i : nat) (p : bytes) : Prop :=
  forall sk, stream_sink so se st = Some sk ->
    reply m sk (seen m sk ++ offered so se sk (take i tr)) p = (length p, None).

(** Each sink has been handed exactly the chunks of the streams wired to
    it, and a stream whose pump is still copying had all its chunks
    accepted. *)
Definition sink_inv (m : Machine) (so se : option SinkId) (tr : list Event) (w : World) : Prop :=
  reply (mach w) = reply m /\
  (forall sk, seen (mach w) sk = seen m sk ++ offered so se sk tr) /\
  (forall st, pump_open w st = true ->
     forall i p, tr !! i = Some (EvPump st p) -> accepted m so se tr st i p).

(** What a failed start of a fresh command leaves for ever: no child, no
    goroutine, and the heap as [Start] left it. *)
Definition childless (c : Addr) (m : Machine) (tr : list Event) (w : World) : Prop :=
  Command (sess w) = c /\
  (cmds (mach w) !! c) ≫= Proc = None /\
  proc w = PNone /\
  bufs (mach w) = bufs m /\ observed (mach w) = observed m /\
  journal (mach w) = journal m /\
  goroutines (mach w) = [] /\
  Forall (fun e => exists i, actor e = Some (TCaller i)) tr.

(** ** A test bench *)

(** A command that was never started, at address 7 of a machine with no
    buffers yet and sinks that accept every chunk whole. *)
Definition bench_cmd : Cmd :=
  {| Stdout := None; Stderr := None; Proc := None; ProcessState := None |}.

Definition bench : Machine :=
  {| cmds := {[ 7%nat := bench_cmd ]}; bufs := ∅; next := 0%nat; observed := ∅;
     reply := fun _ _ p => (length p, None); journal := []; goroutines := [] |}.

Definition bench_session : Session :=
  {| Command := 7%nat; Out := 0%nat; Err := 1%nat; lock := None; exitCode := -1 |}.

(** Writers a caller may pass: a non-nil pointer, a nil pointer, a struct. *)
Definition pointer_writer (sk : SinkId) : DynWriter :=
  {| dyn_kind := reflect.Pointer; dyn_nil := false; dyn_sink := sk |}.
Definition nil_pointer_writer (sk : SinkId) : DynWriter :=
  {| dyn_kind := reflect.Pointer; dyn_nil := true; dyn_sink := sk |}.
Definition struct_writer (sk : SinkId) : DynWriter :=
  {| dyn_kind := reflect.Struct; dyn_nil := false; dyn_sink := sk |}.

(** The machine [Start] leaves behind on the bench. *)
Definition started (launch : option GoError) (ow ew : IoWriter) : Machine :=
  match Start launch 7%nat ow ew bench with
  | Ok (_, m) => m
  | Panic _ => bench
  end.

(** The world a schedule leads to. *)
Definition world_after (w : World) (chs : list Choice) : World :=
  match perform_all w chs with
  | Some (_, w') => w'
  | None => w
  end.

(** One query while the child runs, the child exits with code 3, the
    watcher records it, two more queries. *)
Definition query : list Choice := Call 0 :: replicate 4 (Run (TCaller 0) None).

Definition exit3 : syscall.WaitStatus := syscall.of_exit 3.

Definition schedule_exit3 : list Choice :=
  query ++ [Exit exit3; Run (TGo 0) (Some exit3)] ++ replicate 3 (Run (TGo 0) None)
        ++ query ++ query.

Definition trace_exit3 : list Event :=
  [EvCall (TCaller 0); EvLock (TCaller 0); EvRead (TCaller 0) (-1) (Some (TCaller 0));
   EvUnlock (TCaller 0); EvReturn (TCaller 0) (-1);
   EvExit 768; EvWait (TGo 0) (Some 768); EvLock (TGo 0);
   EvWrite (TGo 0) 3 (Some (TGo 0)); EvUnlock (TGo 0);
   EvCall (TCaller 0); EvLock (TCaller 0); EvRead (TCaller 0) 3 (Some (TCaller 0));
   EvUnlock (TCaller 0); EvReturn (TCaller 0) 3;
   EvCall (TCaller 0); EvLock (TCaller 0); EvRead (TCaller 0) 3 (Some (TCaller 0));
   EvUnlock (TCaller 0); EvReturn (TCaller 0) 3].

(** The child is killed (SIGKILL is signal 9), the watcher records what it
    finds, one query follows. *)
Definition sigkill : syscall.WaitStatus := syscall.of_signal 9 false.

Definition schedule_sigkill : list Choice :=
  [Exit sigkill; Run (TGo 0) (Some sigkill)] ++ replicate 3 (Run (TGo 0) None) ++ query.

Definition trace_sigkill : list Event :=
  [EvExit 9; EvWait (TGo 0) (Some 9); EvLock (TGo 0);
   EvWrite (TGo 0) (-1) (Some (TGo 0)); EvUnlock (TGo 0);
   EvCall (TCaller 0); EvLock (TCaller 0); EvRead (TCaller 0) (-1) (Some (TCaller 0));
   EvUnlock (TCaller 0); EvReturn (TCaller 0) (-1)].

(** The wait fails and the watcher goes on to line 85. *)
Definition schedule_failed_wait : list Choice := replicate 3 (Run (TGo 0) None).

Definition trace_failed_wait : list Event :=
  [EvWait (TGo 0) None; EvLock (TGo 0); EvPanic (TGo 0) NilDereference].

(** A caller is inside [getExitCode], holding the mutex, when the child
    exits with code 3. *)
Definition schedule_busy : list Choice := [Call 0; Run (TCaller 0) None; Exit exit3].

Definition trace_busy : list Event :=
  [EvCall (TCaller 0); EvLock (TCaller 0); EvExit exit3].

(** The child writes to both of its streams. *)
Definition hello : bytes := [Byte.x68; Byte.x69].
Definition oops : bytes := [Byte.x21].

Definition schedule_output : list Choice :=
  [Pump StdoutStream hello; Pump StderrStream oops; Pump StdoutStream oops].

Definition trace_output : list Event :=
  [EvPump StdoutStream hello; EvPump StderrStream oops; EvPump StdoutStream oops].

(** One query, from entry to return, while nothing is recorded. *)
Definition trace_query : list Event :=
  [EvCall (TCaller 0); EvLock (TCaller 0); EvRead (TCaller 0) (-1) (Some (TCaller 0));
   EvUnlock (TCaller 0); EvReturn (TCaller 0) (-1)].

(** * Facts about [Start] and the writers *)

Lemma Start_inv launch c ow ew m0 s e m :
  Start launch c ow ew m0 = Ok ((s, e), m) ->
  exists cmd bo be,
    cmds m0 !! c = Some cmd /\ usable ow = Ok bo /\ usable ew = Ok be /\
    s = {| Command := c; Out := next m0; Err := S (next m0); lock := None; exitCode := -1 |} /\
    (exists cmd3,
      exec.Start launch
        (set_Stderr (Some (effective (S (next m0)) ew be))
           (set_Stdout (Some (effective (next m0) ow bo)) cmd)) = (cmd3, e) /\
      cmds m !! c = Some cmd3) /\
    bufs m = <[S (next m0) := []]> (<[next m0 := []]> (bufs m0)) /\
    observed m = observed m0 /\ reply m = reply m0 /\
    goroutines m = goroutines m0 ++ match e with None => [spawn monitorForExit] | Some _ => [] end /\
    journal m = journal m0 ++
      [EfNewBuffer (next m0); EfNewBuffer (S (next m0));
       EfAttachStdout c (effective (next m0) ow bo);
       EfAttachStderr c (effective (S (next m0)) ew be);
       EfStartAttempt c e] ++ match e with None => [EfGo monitorForExit] | Some _ => [] end.
Proof.
  unfold Start, bind, NewBuffer, lift, ret. cbn [gbytes.NewBuffer].
  destruct (usable ow) as [bo|] eqn:Ho; [|discriminate].
  destruct (usable ew) as [be|] eqn:He; [|discriminate].
  unfold assign_Stdout, assign_Stderr, command_Start. cbn.
  destruct (cmds m0 !! c) as [cmd|] eqn:Hc; [|discriminate].
  cbn. rewrite lookup_insert_eq. cbn. rewrite lookup_insert_eq.
  fold (effective (next m0) ow bo). fold (effective (S (next m0)) ew be).
  destruct (exec.Start launch _) as [cmd3 err] eqn:Hs.
  destruct err as [x|]; cbn; intros [= <- <- <-]; cbn;
    exists cmd, bo, be; repeat split; eauto using lookup_insert_eq;
    first [ eexists; split; [exact Hs | apply lookup_insert_eq]
          | symmetry; apply app_nil_r
          | rewrite <- ?app_assoc; reflexivity ].
Qed.

Lemma Start_panics launch c ow ew m0 why :
  Start launch c ow ew m0 = Panic why <->
  usable ow = Panic why \/
  (exists bo, usable ow = Ok bo /\ usable ew = Panic why) \/
  (exists bo be, usable ow = Ok bo /\ usable ew = Ok be /\
                 cmds m0 !! c = None /\ why = NilDereference).
Proof.
  unfold Start, bind, NewBuffer, lift, ret. cbn [gbytes.NewBuffer].
  destruct (usable ow) as [bo|w1] eqn:Ho.
  2:{ split; [intros [= ->]; auto | intros [[= ->]|[(?&[=]&_)|(?&?&[=]&_)]]; reflexivity]. }
  destruct (usable ew) as [be|w2] eqn:He.
  2:{ split; [intros [= ->]; eauto | intros [[=]|[(?&_&[= ->])|(?&?&_&[=]&_)]]; reflexivity]. }
  unfold assign_Stdout, assign_Stderr, command_Start. cbn.
  destruct (cmds m0 !! c) as [cmd|] eqn:Hc.
  - cbn. rewrite lookup_insert_eq. cbn. rewrite lookup_insert_eq.
    destruct (exec.Start launch _) as [cmd3 [x|]]; cbn;
      (split; [discriminate | intros [[=]|[(?&_&[=])|(?&?&_&_&[=]&_)]]]).
  - split; [intros [= <-]; right; right; by do 2 eexists
           | intros [[=]|[(?&_&[=])|(?&?&_&_&_&->)]]; reflexivity].
Qed.

Lemma usable_Some d :
  usable (Some d) =
  if reflect.nilable (dyn_kind d) then Ok (negb (dyn_nil d)) else Panic ReflectIsNil.
Proof. unfold usable, reflect.IsNil, ValueOf; cbn. destruct (reflect.nilable _); reflexivity. Qed.

(** Claim C9. A non-nil [outWriter] or [errWriter] whose dynamic type is of a
    kind that [reflect.Value.IsNil] does not accept (a struct value, say)
    makes [Start] panic: the check at lines 63 and 67 calls [IsNil] on every
    non-nil writer. The panic is the one of [reflect], raised before the
    command is touched. *)
Theorem C9_non_nilable_writer_panics launch c ow ew m0 d :
  ow = Some d \/ ew = Some d ->
  reflect.nilable (dyn_kind d) = false ->
  Start launch c ow ew m0 = Panic ReflectIsNil.
Proof.
  intros Hw Hk. apply Start_panics.
  assert (Hd : usable (Some d) = Panic ReflectIsNil) by (rewrite usable_Some, Hk; reflexivity).
  destruct Hw as [-> | ->]; [left; exact Hd|].
  destruct (usable ow) as [bo|why] eqn:Ho.
  - right; left. eauto.
  - left. destruct ow as [d'|]; [|discriminate].
    rewrite usable_Some in Ho.
    destruct (reflect.nilable (dyn_kind d')); [discriminate | congruence].
Qed.

Lemma exec_Start_inv launch c c' e :
  exec.Start launch c = (c', e) ->
  Stdout c' = Stdout c /\ Stderr c' = Stderr c /\ ProcessState c' = ProcessState c /\
  match e with
  | None => Proc c = None /\ launch = None /\
            Proc c' = Some {| pump_out := Stdout c; pump_err := Stderr c |}
  | Some _ => c' = c
  end.
Proof.
  unfold exec.Start. destruct (Proc c) eqn:Hp; [intros [= <- <-]; auto|].
  destruct launch; intros [= <- <-]; cbn; auto 10.
Qed.

Section io_facts.
Variables (b : Addr) (p : bytes) (m : Machine).

Lemma buffer_Write_snd :
  let m' := snd (gbytes.Write b p m) in
  contents m' b = contents m b ++ p /\
  (forall b', b' <> b -> contents m' b' = contents m b') /\
  observed m' = observed m /\ reply m' = reply m /\ cmds m' = cmds m /\
  goroutines m' = goroutines m /\
  journal m' = journal m ++ [EfAppend b p].
Proof.
  cbn. repeat split; try reflexivity.
  - unfold contents; cbn. by rewrite lookup_insert_eq.
  - intros b' Hb. unfold contents; cbn. by rewrite lookup_insert_ne.
Qed.

Lemma sink_write_snd (d : DynWriter) :
  let m' := snd (io.sink_write d p m) in
  bufs m' = bufs m /\
  seen m' (dyn_sink d) = seen m (dyn_sink d) ++ [p] /\
  (forall s', s' <> dyn_sink d -> seen m' s' = seen m s') /\
  reply m' = reply m /\ cmds m' = cmds m /\ goroutines m' = goroutines m /\
  journal m' = journal m ++ [EfOffer (dyn_sink d) p].
Proof.
  cbn. repeat split; try reflexivity.
  - unfold seen; cbn. by rewrite lookup_insert_eq.
  - intros s' Hs. unfold seen; cbn. by rewrite lookup_insert_ne.
Qed.
End io_facts.

Lemma write_fan_out b d p m :
  snd (io.write (effective b (Some d) true) p m)
  = snd (io.sink_write d p (snd (gbytes.Write b p m))).
Proof.
  cbn -[io.sink_write]. rewrite Nat.eqb_refl.
  destruct (io.sink_write d p _) as [[n [e|]] m2]; cbn; [reflexivity|].
  destruct (Nat.eqb n (length p)); reflexivity.
Qed.

(** Whatever the caller's writer and the verdict, the stream's bytes land in
    the capture buffer. *)
Lemma write_effective_captures b w wrap p m :
  contents (snd (io.write (effective b w wrap) p m)) b = contents m b ++ p.
Proof.
  destruct wrap; [|apply buffer_Write_snd].
  destruct w as [d|].
  - rewrite write_fan_out. unfold contents.
    destruct (sink_write_snd p (snd (gbytes.Write b p m)) d) as (-> & _).
    apply buffer_Write_snd.
  - cbn. rewrite Nat.eqb_refl. cbn. unfold contents; cbn. by rewrite lookup_insert_eq.
Qed.

Lemma write_effective_other b w wrap p m b' :
  b' <> b -> contents (snd (io.write (effective b w wrap) p m)) b' = contents m b'.
Proof.
  intros Hb. destruct wrap; [|by apply buffer_Write_snd].
  destruct w as [d|].
  - rewrite write_fan_out. unfold contents.
    destruct (sink_write_snd p (snd (gbytes.Write b p m)) d) as (-> & _).
    by apply buffer_Write_snd.
  - cbn. rewrite Nat.eqb_refl. cbn. unfold contents; cbn. by rewrite lookup_insert_ne.
Qed.

Lemma fan_out_effective b d : fans_out (effective b (Some d) true) b (dyn_sink d).
Proof.
  intros ps. induction ps as [|p ps IH]; intros m1.
  - cbn. by rewrite !app_nil_r.
  - cbn [io.write_all]. cbn zeta in *.
    set (m' := snd (io.write (effective b (Some d) true) p m1)).
    destruct (IH m') as (Hc & Hs & Hj). rewrite Hc, Hs, Hj. clear IH Hc Hs Hj.
    subst m'. rewrite write_fan_out.
    set (mb := snd (gbytes.Write b p m1)).
    destruct (sink_write_snd p mb d) as (Hb & Hs & _ & _ & _ & _ & Hj).
    destruct (buffer_Write_snd b p m1) as (Hc' & _ & Ho' & _ & _ & _ & Hj').
    fold mb in Hc', Ho', Hj'.
    unfold contents in *. rewrite Hb, Hc', Hs, Hj, Hj'.
    unfold seen. rewrite Ho'. cbn. rewrite <- !app_assoc. done.
Qed.

(** What [Start] leaves in the command: the two destinations, and on
    success a process whose pumps are bound to them. *)
Lemma Start_command launch c ow ew m0 s e m :
  Start launch c ow ew m0 = Ok ((s, e), m) ->
  exists bo be cmd,
    usable ow = Ok bo /\ usable ew = Ok be /\
    cmds m !! c = Some cmd /\
    Stdout cmd = Some (effective (Out s) ow bo) /\
    Stderr cmd = Some (effective (Err s) ew be) /\
    (e = None ->
     ProcessState cmd = (cmds m0 !! c) ≫= ProcessState /\
     Proc cmd = Some {| pump_out := Some (effective (Out s) ow bo);
                        pump_err := Some (effective (Err s) ew be) |}).
Proof.
  intros H. apply Start_inv in H
    as (cmd0 & bo & be & Hc & Ho & He & -> & (cmd & Hs & Hm) & _).
  apply exec_Start_inv in Hs as (H1 & H2 & H3 & H4).
  exists bo, be, cmd. cbn in *. do 5 (split; [done|]).
  intros ->. destruct H4 as (_ & _ & ->). by rewrite Hc.
Qed.

(** Claim C3. After [Start] returned, a stream whose writer [d] was supplied
    and is not a nil pointer is attached to a destination that fans out:
    every chunk written to it is appended to the capture buffer and handed
    to the sink, so the chunks the sink observes are exactly the bytes the
    buffer gained, in order, and each chunk reaches the buffer before the
    sink (see [fans_out]). What the sink answers plays no part. *)
Theorem C3_fan_out_delivers launch c ow ew m0 s e m d :
  Start launch c ow ew m0 = Ok ((s, e), m) ->
  dyn_nil d = false ->
  exists cmd out_dst err_dst,
    cmds m !! c = Some cmd /\
    Stdout cmd = Some out_dst /\ Stderr cmd = Some err_dst /\
    (ow = Some d -> fans_out out_dst (Out s) (dyn_sink d)) /\
    (ew = Some d -> fans_out err_dst (Err s) (dyn_sink d)).
Proof.
  intros H Hd.
  destruct (Start_command _ _ _ _ _ _ _ _ H) as (bo & be & cmd & Ho & He & Hc & H1 & H2 & _).
  exists cmd, (effective (Out s) ow bo), (effective (Err s) ew be).
  do 3 (split; [done|]). split.
  - intros ->. rewrite usable_Some in Ho.
    destruct (reflect.nilable (dyn_kind d)); [|discriminate].
    rewrite Hd in Ho. injection Ho as <-. apply fan_out_effective.
  - intros ->. rewrite usable_Some in He.
    destruct (reflect.nilable (dyn_kind d)); [|discriminate].
    rewrite Hd in He. injection He as <-. apply fan_out_effective.
Qed.

(** Claim C6. A writer that is a non-nil interface value holding a nil
    pointer (map, slice, channel, function) is treated as no writer at all:
    [Start] computes the very same result as with the nil interface, and
    the stream is attached to the capture buffer alone, not to a fan-out. *)
Theorem C6_typed_nil_is_absent launch c d other m0 :
  reflect.nilable (dyn_kind d) = true ->
  dyn_nil d = true ->
  Start launch c (Some d) other m0 = Start launch c None other m0 /\
  Start launch c other (Some d) m0 = Start launch c other None m0 /\
  (forall s e m, Start launch c (Some d) other m0 = Ok ((s, e), m) ->
     (cmds m !! c) ≫= Stdout = Some (Single (DBuffer (Out s)))) /\
  (forall s e m, Start launch c other (Some d) m0 = Ok ((s, e), m) ->
     (cmds m !! c) ≫= Stderr = Some (Single (DBuffer (Err s)))).
Proof.
  intros Hk Hn.
  assert (Hu : usable (Some d) = Ok false) by (by rewrite usable_Some, Hk, Hn).
  split; [|split; [|split]].
  - unfold Start, bind, lift. by rewrite Hu.
  - unfold Start, bind, lift. rewrite Hu. cbn [usable].
    destruct (NewBuffer m0) as [[? ?]|]; [|done].
    destruct (NewBuffer _) as [[? ?]|]; [|done].
    by destruct (usable other).
  - intros s e m H.
    destruct (Start_command _ _ _ _ _ _ _ _ H) as (bo & be & cmd & Ho & _ & -> & H1 & _).
    cbn. rewrite H1. rewrite Hu in Ho. by injection Ho as <-.
  - intros s e m H.
    destruct (Start_command _ _ _ _ _ _ _ _ H) as (bo & be & cmd & _ & He & -> & _ & H2 & _).
    cbn. rewrite H2. rewrite Hu in He. by injection He as <-.
Qed.

(** * The invariant of the concurrent world *)

Ltac in_list :=
  cbn; repeat first [apply list_elem_of_here | apply list_elem_of_further].

Lemma Inv_boot launch c ow ew m0 s e m n :
  Start launch c ow ew m0 = Ok ((s, e), m) ->
  goroutines m0 = [] ->
  Inv [] (boot m s n).
Proof.
  intros H Hg.
  destruct (Start_command _ _ _ _ _ _ _ _ H) as (bo & be & cmd & _ & _ & Hc & _ & _ & Hp).
  apply Start_inv in H as (_ & _ & _ & _ & _ & _ & -> & _ & _ & _ & _ & Hgo & _).
  rewrite Hg in Hgo. cbn in Hgo, Hc.
  assert (Hcallers : forall i th, replicate n (spawn []) !! i = Some th -> th = spawn []).
  { intros i th Hi. by apply lookup_replicate in Hi as [-> _]. }
  assert (Hproc : forall ws,
            match cmds m !! c ≫= Proc with Some _ => PRunning | None => PNone end
            <> PExited ws).
  { intros ws. by destruct (cmds m !! c ≫= Proc). }
  destruct e as [x|]; cbn in Hgo; split; unfold lock_inv, cmd_inv, ret_inv, res_inv; cbn; rewrite ?Hgo.
  all: try (intros i th Hi; rewrite (Hcallers _ _ Hi); cbn; first [by in_list | by intros [|]]).
  all: try (by constructor).
  all: try (intros ws; split; [by intros ?%Hproc | by intros ?%elem_of_nil]).
  all: try (unfold store_inv, written; cbn; rewrite Hgo; by cbn).
  all: try (by intros i t v Hi).
  all: try (by intros t Ht).
  all: try (split; [by intros th st _ _ ?%elem_of_nil | by intros ?%elem_of_nil]).
  - intros [k|i] th Hth; cbn in Hth; [by rewrite Hgo in Hth|].
    by rewrite (Hcallers _ _ Hth).
  - exists cmd. by repeat split.
  - right. eexists; split; [done|]. by in_list.
  - intros [k|i] th Hth; cbn in Hth.
    + rewrite Hgo in Hth. by destruct k; simplify_eq/=.
    + by rewrite (Hcallers _ _ Hth).
  - exists cmd. split; [done|]. split.
    + intros _. by destruct (Hp eq_refl) as [_ ->].
    + intros th ws [= <-]. done.
Qed.

(** *** Extending the history by one event *)

Lemma store_inv_other tr w w' e :
  store_inv tr w ->
  written w' = written w ->
  exitCode (sess w') = exitCode (sess w) ->
  (written w = true -> proc w' = proc w) ->
  is_write e = false ->
  (forall t v h, e <> EvRead t v h) ->
  store_inv (tr ++ [e]) w'.
Proof.
  unfold store_inv. intros H -> -> Hp Hw Hr.
  destruct (written w).
  - destruct H as (j & ws & H1 & H2 & H3 & H4 & H5).
    exists j, ws. rewrite Hp by done. do 2 (split; [done|]).
    split; [by apply lookup_app_l_Some|]. split.
    + intros i e' [[_ Hi]|[_ <-]]%lookup_snoc_Some He'; [eauto | congruence].
    + intros i t v h [[_ Hi]|[_ ?]]%lookup_snoc_Some; [eauto | by edestruct Hr].
  - destruct H as (H1 & H2 & H3). split; [done|]. split.
    + intros i e' [[_ Hi]|[_ <-]]%lookup_snoc_Some; eauto.
    + intros i t v h [[_ Hi]|[_ ?]]%lookup_snoc_Some; [eauto | by edestruct Hr].
Qed.

Lemma store_inv_read tr w w' t h :
  store_inv tr w ->
  written w' = written w ->
  exitCode (sess w') = exitCode (sess w) ->
  (written w = true -> proc w' = proc w) ->
  store_inv (tr ++ [EvRead t (exitCode (sess w)) h]) w'.
Proof.
  unfold store_inv. intros H -> -> Hp.
  destruct (written w).
  - destruct H as (j & ws & H1 & H2 & H3 & H4 & H5).
    exists j, ws. rewrite Hp by done. do 2 (split; [done|]).
    split; [by apply lookup_app_l_Some|]. split.
    + intros i e' [[_ Hi]|[_ <-]]%lookup_snoc_Some He'; [eauto | done].
    + intros i t' v h' [[_ Hi]|[-> [= _ <- _]]]%lookup_snoc_Some; [eauto|].
      apply lookup_lt_Some in H3. split; [lia | done].
  - destruct H as (H1 & H2 & H3). split; [done|]. split.
    + intros i e' [[_ Hi]|[_ <-]]%lookup_snoc_Some; eauto.
    + intros i t' v h' [[_ Hi]|[_ [= _ <- _]]]%lookup_snoc_Some; eauto.
Qed.

Lemma store_inv_write tr w w' ws :
  store_inv tr w ->
  written w = false ->
  written w' = true ->
  proc w' = PExited ws ->
  exitCode (sess w') = syscall.ExitStatus ws ->
  store_inv (tr ++ [EvWrite (TGo 0) (syscall.ExitStatus ws) (Some (TGo 0))]) w'.
Proof.
  unfold store_inv. intros H Hw Hw' Hp He. rewrite Hw in H. rewrite Hw'.
  destruct H as (H1 & H2 & H3).
  exists (length tr), ws. do 2 (split; [done|]).
  split; [by apply list_lookup_middle|]. split.
  - intros i e' [[_ Hi]|[-> _]]%lookup_snoc_Some He'; [|done].
    apply H2 in Hi. congruence.
  - intros i t v h [[Hlt Hi]|[_ [=]]]%lookup_snoc_Some.
    split; [eauto | lia].
Qed.

Lemma locked_snoc tr e :
  Forall well_locked tr -> well_locked e -> Forall well_locked (tr ++ [e]).
Proof. intros. apply Forall_app; split; [done | by constructor]. Qed.

Lemma exit_snoc_other (P : syscall.WaitStatus -> Prop) tr e :
  (forall ws, P ws <-> EvExit ws ∈ tr) ->
  (forall ws, e <> EvExit ws) ->
  forall ws, P ws <-> EvExit ws ∈ tr ++ [e].
Proof.
  intros H He ws. rewrite H, elem_of_app, list_elem_of_singleton.
  split; [auto | intros [?|?]; [done | by edestruct He]].
Qed.

Lemma ret_inv_app tr e i t v :
  ret_inv tr -> tr !! i = Some (EvReturn t v) ->
  exists k, (k < i)%nat /\ (tr ++ [e]) !! k = Some (EvRead t v (Some t)) /\
            forall a, (a < i)%nat -> (tr ++ [e]) !! a = Some (EvCall t) -> (a < k)%nat.
Proof.
  intros H Hi. destruct (H _ _ _ Hi) as (k & ? & ? & Hc). exists k.
  split; [done|]. split; [by apply lookup_app_l_Some|].
  intros a Ha Ha'. apply Hc; [done|]. apply lookup_lt_Some in Hi.
  rewrite lookup_app_l in Ha' by lia. done.
Qed.

Lemma ret_snoc_other tr e :
  ret_inv tr -> (forall t v, e <> EvReturn t v) -> ret_inv (tr ++ [e]).
Proof.
  intros H He i t v [[_ Hi]|[_ ?]]%lookup_snoc_Some; [|by edestruct He].
  by apply ret_inv_app.
Qed.

Lemma ret_snoc_return tr t v k :
  ret_inv tr -> tr !! k = Some (EvRead t v (Some t)) ->
  (forall a, tr !! a = Some (EvCall t) -> (a < k)%nat) ->
  ret_inv (tr ++ [EvReturn t v]).
Proof.
  intros H Hk Hc i t' v' [[_ Hi]|[-> [= <- <-]]]%lookup_snoc_Some.
  - by apply ret_inv_app.
  - exists k. split; [by apply lookup_lt_Some in Hk|].
    split; [by apply lookup_app_l_Some|].
    intros a Ha Ha'. apply Hc. by rewrite lookup_app_l in Ha'.
Qed.

Lemma res_snoc tr e cs :
  res_inv tr cs ->
  (forall i, e <> EvCall (TCaller i)) ->
  res_inv (tr ++ [e]) cs.
Proof.
  intros H He i th Hi Hc. destruct (H _ _ Hi Hc) as (v & k & ? & Hk & Ha).
  exists v, k. split; [done|]. split; [by apply lookup_app_l_Some|].
  intros a [[_ ?]|[_ ?]]%lookup_snoc_Some; [eauto | by edestruct He].
Qed.

Lemma exec_instr_panic t i waited m s r e why :
  exec_instr t i waited m s r = Some (e, Panic why) -> e = EvPanic t why.
Proof.
  destruct i; cbn; repeat case_match; intros; simplify_eq; done.
Qed.

Lemma wait_inv_frame tr w w' e :
  wait_inv tr w ->
  goroutines (mach w') = goroutines (mach w) ->
  cmds (mach w') !! Command (sess w') = cmds (mach w) !! Command (sess w) ->
  (forall st, e <> EvWait (TGo 0) st) ->
  wait_inv (tr ++ [e]) w'.
Proof.
  intros [H1 H2] Hg Hc He. unfold wait_inv, written. rewrite Hg, Hc. split.
  - intros th st Hth Hcode [?|?%list_elem_of_singleton]%elem_of_app;
      [by eapply H1 | by edestruct He].
  - intros [?|?%list_elem_of_singleton]%elem_of_app; [by apply H2 | by edestruct He].
Qed.

Lemma owner_frame w w' :
  owner_inv w ->
  lock (sess w') = lock (sess w) ->
  (forall t, is_Some (thread_of w t) -> is_Some (thread_of w' t)) ->
  owner_inv w'.
Proof. intros H Hl Ht t Hlt. rewrite Hl in Hlt. auto. Qed.

Lemma Inv_panic tr w t rest why :
  Inv tr w -> Inv (tr ++ [EvPanic t why]) (after w t rest (Panic why)).
Proof.
  intros [Hgo Hcs Hlock Hcmd Hstore Hlocked Hexit Hret Hres Howner Hwait].
  split; cbn; try done.
  - by eapply store_inv_other.
  - by apply locked_snoc.
  - by apply exit_snoc_other.
  - by apply ret_snoc_other.
  - by apply res_snoc.
  - by eapply wait_inv_frame.
Qed.

Lemma tails_monitor cd i rest :
  cd ∈ tails monitorForExit -> cd = i :: rest ->
  (i = IWait /\ rest = [ILock; IStoreExit; IUnlock]) \/
  (i = ILock /\ rest = [IStoreExit; IUnlock]) \/
  (i = IStoreExit /\ rest = [IUnlock]) \/
  (i = IUnlock /\ rest = []).
Proof.
  cbn. rewrite !elem_of_cons, elem_of_nil. intros H ->.
  destruct H as [H|[H|[H|[H|[H|[]]]]]]; simplify_eq; auto 10.
Qed.

Lemma tails_getExitCode cd i rest :
  cd ∈ tails getExitCode -> cd = i :: rest ->
  (i = ILock /\ rest = [ILoadExit; IUnlock; IReturn]) \/
  (i = ILoadExit /\ rest = [IUnlock; IReturn]) \/
  (i = IUnlock /\ rest = [IReturn]) \/
  (i = IReturn /\ rest = []).
Proof.
  cbn. rewrite !elem_of_cons, elem_of_nil. intros H ->.
  destruct H as [H|[H|[H|[H|[H|[]]]]]]; simplify_eq; auto 10.
Qed.

Lemma exec_instr_frame t i waited m s r e m1 s1 r1 :
  exec_instr t i waited m s r = Some (e, Ok (m1, s1, r1)) ->
  goroutines m1 = goroutines m /\ bufs m1 = bufs m /\ observed m1 = observed m /\
  reply m1 = reply m /\ journal m1 = journal m /\
  Command s1 = Command s /\ Out s1 = Out s /\ Err s1 = Err s.
Proof.
  destruct i; cbn; repeat case_match; intros; simplify_eq; done.
Qed.

Lemma thread_of_after w t rest m1 s1 r1 t' th' :
  goroutines m1 = goroutines (mach w) ->
  thread_of (after w t rest (Ok (m1, s1, r1))) t' = Some th' ->
  (t' = t /\ th' = {| code := rest; result := r1 |}) \/
  (t' <> t /\ thread_of w t' = Some th').
Proof.
  intros Hg. destruct t as [k|k], t' as [k'|k']; cbn; rewrite ?Hg.
  - intros [(-> & -> & _)|(Hne & ?)]%list_lookup_insert_Some; [by left | right].
    split; [intros [= ->]; by apply Hne | done].
  - intros ?. by right.
  - intros ?. by right.
  - intros [(-> & -> & _)|(Hne & ?)]%list_lookup_insert_Some; [by left | right].
    split; [intros [= ->]; by apply Hne | done].
Qed.

Lemma after_sess w t rest m1 s1 r1 : sess (after w t rest (Ok (m1, s1, r1))) = s1.
Proof. by destruct t. Qed.

Lemma thread_of_after_is_Some w t th rest m1 s1 r1 t' :
  goroutines m1 = goroutines (mach w) ->
  thread_of w t = Some th ->
  is_Some (thread_of w t') ->
  is_Some (thread_of (after w t rest (Ok (m1, s1, r1))) t').
Proof.
  intros Hg Hth Ht'. destruct t as [k|k], t' as [k'|k']; cbn in *; rewrite ?Hg; try done.
  - by apply list_lookup_insert_is_Some.
  - by apply list_lookup_insert_is_Some.
Qed.

Lemma owner_after w t th rest m1 s1 r1 :
  owner_inv w ->
  thread_of w t = Some th ->
  goroutines m1 = goroutines (mach w) ->
  lock s1 = lock (sess w) \/ lock s1 = Some t \/ lock s1 = None ->
  owner_inv (after w t rest (Ok (m1, s1, r1))).
Proof.
  intros H Hth Hg Hcase t' Hl. rewrite after_sess in Hl.
  eapply thread_of_after_is_Some; [done..|].
  destruct Hcase as [Heq|[Heq|Heq]]; rewrite Heq in Hl.
  - by apply H.
  - injection Hl as <-. by rewrite Hth.
  - done.
Qed.

Lemma lock_inv_after w t th rest m1 s1 r1 :
  lock_inv w ->
  thread_of w t = Some th ->
  goroutines m1 = goroutines (mach w) ->
  (lock s1 = lock (sess w) /\ holding rest = holding (code th)) \/
  (lock (sess w) = None /\ lock s1 = Some t /\ holding rest = true) \/
  (lock s1 = None /\ holding rest = false /\ holding (code th) = true) ->
  lock_inv (after w t rest (Ok (m1, s1, r1))).
Proof.
  intros HL Hth Hg Hcase t' th' Hth'. rewrite after_sess.
  apply thread_of_after in Hth' as [[-> ->]|[Hne Hth']]; [| |done].
  - specialize (HL _ _ Hth). cbn.
    destruct Hcase as [[-> ->]|[(_ & -> & ->)|(-> & -> & _)]]; [done | by split | by split].
  - pose proof (HL _ _ Hth') as H'. pose proof (HL _ _ Hth) as H. cbn.
    destruct Hcase as [[-> _]|[(Hn & -> & _)|(-> & _ & Hh)]]; [done | |].
    + rewrite Hn in H'. rewrite H'. split; [done | congruence].
    + rewrite H'. apply H in Hh. rewrite Hh. split; [congruence | done].
Qed.

Lemma callers_insert_tails (cs : list Thread) (k : nat) th' :
  (forall i th, cs !! i = Some th -> code th ∈ tails getExitCode) ->
  code th' ∈ tails getExitCode ->
  forall i th, <[k:=th']> cs !! i = Some th -> code th ∈ tails getExitCode.
Proof.
  intros H Hth' i th [(-> & -> & _)|(_ & Hi)]%list_lookup_insert_Some; eauto.
Qed.

Lemma res_inv_insert tr e (cs : list Thread) (k : nat) th' :
  res_inv tr cs ->
  (forall i, i <> k -> e <> EvCall (TCaller i)) ->
  (code th' = [IUnlock; IReturn] \/ code th' = [IReturn] ->
   exists v j, result th' = Some v /\
     (tr ++ [e]) !! j = Some (EvRead (TCaller k) v (Some (TCaller k))) /\
     forall a, (tr ++ [e]) !! a = Some (EvCall (TCaller k)) -> (a < j)%nat) ->
  res_inv (tr ++ [e]) (<[k:=th']> cs).
Proof.
  intros H He Hth' i th [(-> & -> & _)|(Hne & Hi)]%list_lookup_insert_Some Hc; [eauto|].
  destruct (H _ _ Hi Hc) as (v & j & ? & Hj & Ha).
  exists v, j. split; [done|]. split; [by apply lookup_app_l_Some|].
  intros a [[_ ?]|[_ ?]]%lookup_snoc_Some; [eauto|]. edestruct He; [|done]. done.
Qed.

(** The fields of [Inv] that only see the history. *)
Ltac history :=
  first [ by apply locked_snoc
        | by apply exit_snoc_other
        | by apply ret_snoc_other
        | by apply res_snoc
        | by (eapply owner_after; [done..|cbn; auto])
        | by eapply wait_inv_frame ].

Lemma dest_write_frame d p m :
  let m' := snd (io.dest_write d p m) in
  cmds m' = cmds m /\ goroutines m' = goroutines m /\ reply m' = reply m /\
  next m' = next m.
Proof. by destruct d. Qed.

Lemma multi_write_frame ds p m :
  let m' := snd (io.multi_write ds p m) in
  cmds m' = cmds m /\ goroutines m' = goroutines m /\ reply m' = reply m /\
  next m' = next m.
Proof.
  revert m. induction ds as [|d ds IH]; intros m; [done|].
  cbn [io.multi_write]. pose proof (dest_write_frame d p m) as Hd.
  destruct (io.dest_write d p m) as [[n [e|]] m1]; cbn in Hd |- *; [done|].
  destruct (Nat.eqb n (length p)); [|done].
  specialize (IH m1). cbn in IH. destruct IH as (-> & -> & -> & ->). done.
Qed.

Lemma write_frame dst p m :
  let m' := snd (io.write dst p m) in
  cmds m' = cmds m /\ goroutines m' = goroutines m /\ reply m' = reply m /\
  next m' = next m.
Proof. destruct dst; [apply dest_write_frame | apply multi_write_frame]. Qed.

Lemma pumped_fields w st dst p :
  mach (pumped w st dst p) = snd (io.write dst p (mach w)) /\
  sess (pumped w st dst p) = sess w /\
  proc (pumped w st dst p) = proc w /\
  callers (pumped w st dst p) = callers w.
Proof. unfold pumped. by destruct (io.write dst p (mach w)). Qed.

Lemma Inv_step tr w e w' : Inv tr w -> step w e w' -> Inv (tr ++ [e]) w'.
Proof.
  intros HI Hstep.
  inversion Hstep as [w0 t th i rest waited e0 o Hcr Hth Hcode Hready Hexec
                     | w0 i th Hcr Hth Hcode | w0 ws Hcr Hproc Hws
                     | w0 st dst p Hcr Hopen Hdst]; subst.
  - destruct o as [[[m1 s1] r1]|why];
      [|apply exec_instr_panic in Hexec as ->; by apply Inv_panic].
    pose proof (exec_instr_frame _ _ _ _ _ _ _ _ _ _ Hexec) as (Hfg & _).
    destruct HI as [Hgo Hcs Hlock Hcmd Hstore Hlocked Hexit Hret Hres Howner Hwait].
    destruct Hcmd as (cmd & Hcmd & Hproc & Hps).
    destruct t as [k|k]; cbn in Hth.
    + destruct Hgo as [Hnil | (th0 & Hg & Hin)]; [by rewrite Hnil in Hth|].
      rewrite Hg in Hth. destruct k; [|done]. injection Hth as ->.
      assert (Hth : thread_of w (TGo 0) = Some th) by (cbn; by rewrite Hg).
      assert (Hw : written w = match code th with [IUnlock] | [] => true | _ => false end)
        by (unfold written; by rewrite Hg).
      pose proof (Hlock _ _ Hth) as Hmine.
      destruct (tails_monitor _ _ _ Hin Hcode) as [[-> ->]|[[-> ->]|[[-> ->]|[-> ->]]]];
        rewrite Hcode in Hw, Hmine; cbn in Hexec, Hmine.
      * (* Wait *)
        rewrite Hcmd in Hexec. destruct (Hproc ltac:(by rewrite Hg)) as [pr Hpr].
        rewrite Hpr in Hexec. injection Hexec as <- <- <- <-.
        split; try history.
        -- right. eexists. split; [cbn; by rewrite Hg|in_list].
        -- done.
        -- eapply lock_inv_after; [done..|]. left. by rewrite Hcode.
        -- exists (set_ProcessState waited cmd). cbn. rewrite lookup_insert_eq, Hg. cbn.
           split; [done|]. split; [by rewrite Hpr|].
           intros th' ws [= <-] _ ->. exact Hready.
        -- eapply store_inv_other; try done. rewrite Hw. unfold written; cbn. by rewrite Hg.
        -- destruct Hwait as [Hw1 Hw2]. split.
           ++ intros th' st. cbn. rewrite Hg. cbn. by intros [= <-] ?.
           ++ intros Hin'. split; [unfold written; cbn; by rewrite Hg|].
              cbn. rewrite lookup_insert_eq. cbn.
              apply elem_of_app in Hin' as [Hin'|Hin'%list_elem_of_singleton].
              ** by apply (Hw1 th None) in Hin'.
              ** by injection Hin' as <-.
      * (* Lock *)
        destruct (lock (sess w)) eqn:Hl; [done|]. injection Hexec as <- <- <- <-.
        split; try history.
        -- right. eexists. split; [cbn; by rewrite Hg|in_list].
        -- done.
        -- eapply lock_inv_after; [done..|]. right; left. by repeat split.
        -- exists cmd. cbn. rewrite Hg. cbn. split; [done|].
           split; [intros _; apply Hproc; by rewrite Hg|].
           intros th' ws [= <-] _. apply (Hps th); [done|by rewrite Hcode].
        -- eapply store_inv_other; try done. rewrite Hw. unfold written; cbn. by rewrite Hg.
        -- destruct Hwait as [Hw1 Hw2]. split.
           ++ intros th' st. cbn. rewrite Hg. cbn. by intros [= <-] ?.
           ++ intros [Hin'|Hin'%list_elem_of_singleton]%elem_of_app; [|done].
              destruct (Hw2 Hin') as [_ Hps']. split; [|done].
              unfold written; cbn. by rewrite Hg.
      * (* the assignment *)
        rewrite Hcmd in Hexec. destruct (ProcessState cmd) as [ws|] eqn:Hws; [|done].
        injection Hexec as <- <- <- <-.
        assert (Hpx : proc w = PExited ws) by (apply (Hps th); [done|by rewrite Hcode|done]).
        assert (Hl : lock (sess w) = Some (TGo 0)) by by apply Hmine.
        rewrite Hl.
        split; try history.
        -- right. eexists. split; [cbn; by rewrite Hg|in_list].
        -- done.
        -- eapply lock_inv_after; [done..|]. left. by rewrite Hcode.
        -- exists cmd. cbn. rewrite Hg. cbn. split; [done|].
           split; [intros _; apply Hproc; by rewrite Hg|].
           intros th' ws' _ _ ?. by simplify_eq.
        -- eapply store_inv_write; try done. unfold written; cbn. by rewrite Hg.
        -- destruct Hwait as [Hw1 Hw2]. split.
           ++ intros th' st. cbn. rewrite Hg. cbn. by intros [= <-] ?.
           ++ intros [Hin'|Hin'%list_elem_of_singleton]%elem_of_app; [|done].
              destruct (Hw2 Hin') as [_ Hps']. rewrite Hcmd in Hps'. cbn in Hps'. congruence.
      * (* Unlock *)
        destruct (lock (sess w)) eqn:Hl; [|done]. injection Hexec as <- <- <- <-.
        split; try history.
        -- right. eexists. split; [cbn; by rewrite Hg|in_list].
        -- done.
        -- eapply lock_inv_after; [done..|]. right; right. rewrite Hcode. by repeat split.
        -- exists cmd. cbn. rewrite Hg. cbn. split; [done|].
           split; [intros _; apply Hproc; by rewrite Hg|].
           intros th' ws [= <-] _. apply (Hps th); [done|by rewrite Hcode].
        -- eapply store_inv_other; try done. rewrite Hw. unfold written; cbn. by rewrite Hg.
        -- destruct Hwait as [Hw1 Hw2]. split.
           ++ intros th' st. cbn. rewrite Hg. cbn. by intros [= <-] ?.
           ++ intros [Hin'|Hin'%list_elem_of_singleton]%elem_of_app; [|done].
              destruct (Hw2 Hin') as [Hnw _]. congruence.
    + pose proof (Hcs _ _ Hth) as Hin.
      assert (Hth' : thread_of w (TCaller k) = Some th) by done.
      pose proof (Hlock _ _ Hth') as Hmine.
      assert (Hcmd' : cmd_inv w) by (exists cmd; done).
      destruct (tails_getExitCode _ _ _ Hin Hcode) as [[-> ->]|[[-> ->]|[[-> ->]|[-> ->]]]];
        rewrite Hcode in Hmine; cbn in Hexec, Hmine.
      * (* Lock *)
        destruct (lock (sess w)) eqn:Hl; [done|]. injection Hexec as <- <- <- <-.
        split; try history; [done| | |done| |].
        -- cbn. apply callers_insert_tails; [done|in_list].
        -- eapply lock_inv_after; [done..|]. right; left. by repeat split.
        -- by eapply store_inv_other.
        -- cbn. apply res_inv_insert; [done|done|]. by intros [|].
      * (* the load *)
        injection Hexec as <- <- <- <-.
        assert (Hl : lock (sess w) = Some (TCaller k)) by by apply Hmine.
        rewrite Hl.
        split; try history; [done| | |done| |].
        -- cbn. apply callers_insert_tails; [done|in_list].
        -- eapply lock_inv_after; [done..|]. left. by rewrite Hcode.
        -- by eapply store_inv_read.
        -- cbn. apply res_inv_insert; [done|done|]. intros _.
           exists (exitCode (sess w)), (length tr). split; [done|].
           split; [by apply list_lookup_middle|].
           by intros a [[? _]|[_ ?]]%lookup_snoc_Some.
      * (* Unlock *)
        destruct (lock (sess w)) eqn:Hl; [|done]. injection Hexec as <- <- <- <-.
        split; try history; [done| | |done| |].
        -- cbn. apply callers_insert_tails; [done|in_list].
        -- eapply lock_inv_after; [done..|]. right; right. rewrite Hcode. by repeat split.
        -- by eapply store_inv_other.
        -- cbn. apply res_inv_insert; [done|done|]. intros _.
           destruct (Hres _ _ Hth) as (v & j & ? & ? & Ha); [left; by rewrite Hcode|].
           exists v, j. split; [done|]. split; [by apply lookup_app_l_Some|].
           intros a [[_ ?]|[_ ?]]%lookup_snoc_Some; [eauto | done].
      * (* return *)
        injection Hexec as <- <- <- <-.
        destruct (Hres _ _ Hth) as (v & j & Hv & Hj & Ha); [right; by rewrite Hcode|].
        rewrite Hv. cbn [default].
        split; try history; [done| | |done| | |].
        -- cbn. apply callers_insert_tails; [done|in_list].
        -- eapply lock_inv_after; [done..|]. left. by rewrite Hcode.
        -- by eapply store_inv_other.
        -- by eapply ret_snoc_return.
        -- cbn. apply res_inv_insert; [done|done|]. by intros [|].
  - (* call *)
    destruct HI as [Hgo Hcs Hlock Hcmd Hstore Hlocked Hexit Hret Hres Howner Hwait].
    split; try history; [done| | |done| | |].
    + cbn. apply callers_insert_tails; [done|in_list].
    + intros [k|k] th' Hth'; cbn in Hth' |- *; [by apply (Hlock (TGo k))|].
      apply list_lookup_insert_Some in Hth' as [(-> & <- & _)|(_ & Hth')];
        [|by apply (Hlock (TCaller k))].
      specialize (Hlock (TCaller k) _ Hth). by rewrite Hcode in Hlock.
    + by eapply store_inv_other.
    + cbn. apply res_inv_insert; [done| |by intros [|]].
      intros j Hj [= ->]. done.
    + eapply owner_frame; [done|done|]. intros [k|k] Hk; cbn in *; [done|].
      by apply list_lookup_insert_is_Some.
  - (* the child terminates *)
    destruct HI as [Hgo Hcs Hlock Hcmd Hstore Hlocked Hexit Hret Hres Howner Hwait].
    assert (Hnw : written w = false).
    { unfold store_inv in Hstore. destruct (written w); [|done].
      destruct Hstore as (_ & ? & ? & _). congruence. }
    split; try history; try done.
    + destruct Hcmd as (cmd & ? & ? & Hps). exists cmd. cbn. do 2 (split; [done|]).
      intros th ws' ? ? ?. specialize (Hps th ws'). rewrite Hproc in Hps. by discriminate Hps.
    + eapply store_inv_other; try done. rewrite Hnw. done.
    + intros ws'. cbn. rewrite elem_of_app, list_elem_of_singleton. split.
      * intros [= ->]. by right.
      * intros [Hin%Hexit|[= ->]]; [congruence | done].
  - (* output *)
    destruct HI as [Hgo Hcs Hlock Hcmd Hstore Hlocked Hexit Hret Hres Howner Hwait].
    destruct (pumped_fields w st dst p) as (Hm & Hs & Hp & Hc).
    destruct (write_frame dst p (mach w)) as (Hwc & Hwg & _).
    split; rewrite ?Hm, ?Hs, ?Hp, ?Hc, ?Hwg; try history; try done.
    + intros [k|k] th' Hth'; cbn in Hth'; rewrite ?Hm, ?Hc, ?Hs, ?Hwg in *.
      * by apply (Hlock (TGo k)).
      * by apply (Hlock (TCaller k)).
    + destruct Hcmd as (cmd & ? & ? & Hps). exists cmd.
      rewrite Hm, Hs, Hp, Hwc, Hwg. done.
    + eapply store_inv_other; try done; [|by rewrite Hs].
      unfold written. by rewrite Hm, Hwg.
    + eapply owner_frame; [done|by rewrite Hs|].
      intros [k|k]; cbn; by rewrite ?Hm, ?Hwg, ?Hc.
    + eapply wait_inv_frame; [done| | |done].
      * by rewrite Hm, Hwg.
      * by rewrite Hm, Hs, Hwc.
Qed.

Lemma Inv_run tr w0 w : Inv [] w0 -> run w0 tr w -> Inv tr w.
Proof. intros H0 Hrun. induction Hrun; [done | eauto using Inv_step]. Qed.

(** * The claims *)

Lemma Inv_reach launch c ow ew m0 s e m n tr w :
  Start launch c ow ew m0 = Ok ((s, e), m) ->
  goroutines m0 = [] ->
  run (boot m s n) tr w ->
  Inv tr w.
Proof. intros H Hg Hrun. eapply Inv_run; [by eapply Inv_boot | done]. Qed.

(** What the store invariant says about single events. *)
Lemma store_inv_reads tr w :
  store_inv tr w ->
  (forall i t v h, tr !! i = Some (EvRead t v h) ->
     (forall j e, (j < i)%nat -> tr !! j = Some e -> is_write e = false) -> v = -1) /\
  (forall j tw vw hw i t v h,
     tr !! j = Some (EvWrite tw vw hw) -> tr !! i = Some (EvRead t v h) ->
     (j < i)%nat -> v = vw) /\
  (forall j tw vw hw, tr !! j = Some (EvWrite tw vw hw) ->
     tw = TGo 0 /\ hw = Some (TGo 0) /\ written w = true /\
     exists ws, proc w = PExited ws /\ vw = syscall.ExitStatus ws /\
                exitCode (sess w) = vw) /\
  (forall j j' e e', tr !! j = Some e -> tr !! j' = Some e' ->
     is_write e = true -> is_write e' = true -> j = j') /\
  (written w = true -> exists j e, tr !! j = Some e /\ is_write e = true) /\
  (written w = false -> exitCode (sess w) = -1).
Proof.
  unfold store_inv. destruct (written w).
  - intros (j0 & ws & Hp & Hx & Hj0 & Huniq & Hreads).
    repeat apply conj.
    + intros i t v h Hi Hno. destruct (Hreads _ _ _ _ Hi) as [Hlt Hgt].
      destruct (decide (i < j0)%nat); [auto|].
      assert (i <> j0) by (intros ->; congruence).
      specialize (Hno j0 _ ltac:(lia) Hj0). done.
    + intros j tw vw hw i t v h Hj Hi Hlt.
      assert (j = j0) as -> by by eapply Huniq.
      rewrite Hj0 in Hj. injection Hj as <- <- <-.
      by apply (Hreads _ _ _ _ Hi).
    + intros j tw vw hw Hj.
      assert (j = j0) as -> by by eapply Huniq.
      rewrite Hj0 in Hj. injection Hj as <- <- <-. eauto 10.
    + intros j j' e e' Hj Hj' He He'.
      rewrite (Huniq _ _ Hj He), (Huniq _ _ Hj' He'). done.
    + intros _. eauto.
    + done.
  - intros (Hx & Hnow & Hreads). repeat apply conj.
    + eauto.
    + intros j tw vw hw i t v h Hj. by apply Hnow in Hj.
    + intros j tw vw hw Hj. by apply Hnow in Hj.
    + intros j j' e e' Hj _ He. apply Hnow in Hj. congruence.
    + done.
    + done.
Qed.

(** Claim C1. In every execution that follows a successful [Start]: the
    session starts with the sentinel -1; a read of the store that no write
    precedes sees -1; a read after the write sees the value written; that
    write is the watcher's, of the exit status of the state the child
    terminated with, and the store keeps it; there is at most one write,
    and exactly one once the watcher is past its assignment; every read and
    write is made by a thread holding the mutex; and every value
    [getExitCode] returned is such a read, made during the call, so that a
    query that returns before any write returns -1 and a query entered
    after the write returns the value written. *)
Theorem C1_exit_code_store launch c ow ew m0 s m n tr w :
  Start launch c ow ew m0 = Ok ((s, None), m) ->
  goroutines m0 = [] ->
  run (boot m s n) tr w ->
  exitCode s = -1 /\
  (forall i t v h, tr !! i = Some (EvRead t v h) ->
     (forall j e, (j < i)%nat -> tr !! j = Some e -> is_write e = false) -> v = -1) /\
  (forall j tw vw hw i t v h,
     tr !! j = Some (EvWrite tw vw hw) -> tr !! i = Some (EvRead t v h) ->
     (j < i)%nat -> v = vw) /\
  (forall j tw vw hw, tr !! j = Some (EvWrite tw vw hw) ->
     tw = TGo 0 /\
     exists ws, EvExit ws ∈ tr /\ vw = syscall.ExitStatus ws /\
                exitCode (sess w) = vw) /\
  (forall j j' e e', tr !! j = Some e -> tr !! j' = Some e' ->
     is_write e = true -> is_write e' = true -> j = j') /\
  (written w = true -> exists j e, tr !! j = Some e /\ is_write e = true) /\
  Forall well_locked tr /\
  ret_inv tr /\
  (forall b t v, tr !! b = Some (EvReturn t v) ->
     (forall j e, (j < b)%nat -> tr !! j = Some e -> is_write e = false) -> v = -1) /\
  (forall j tw vw hw a b t v,
     tr !! j = Some (EvWrite tw vw hw) ->
     tr !! a = Some (EvCall t) -> tr !! b = Some (EvReturn t v) ->
     (j < a < b)%nat -> v = vw).
Proof.
  intros HS Hg Hrun.
  pose proof (Inv_reach _ _ _ _ _ _ _ _ _ _ _ HS Hg Hrun) as HI.
  destruct (store_inv_reads _ _ (inv_store _ _ HI)) as (H1 & H2 & H3 & H4 & H5 & _).
  split.
  { apply Start_inv in HS as (_ & _ & _ & _ & _ & _ & -> & _). done. }
  do 2 (split; [done|]). split.
  { intros j tw vw hw Hj. destruct (H3 _ _ _ _ Hj) as (-> & _ & _ & ws & Hp & -> & Hx).
    split; [done|]. exists ws. split; [by apply (inv_exit _ _ HI)|done]. }
  do 2 (split; [done|]). split; [apply (inv_locked _ _ HI)|].
  split; [apply (inv_ret _ _ HI)|]. split.
  - intros b t v Hb Hno. destruct (inv_ret _ _ HI _ _ _ Hb) as (k & Hk & Hr & _).
    apply (H1 _ _ _ _ Hr). intros j e Hj. apply Hno. lia.
  - intros j tw vw hw a b t v Hj Ha Hb Hlt.
    destruct (inv_ret _ _ HI _ _ _ Hb) as (k & Hk & Hr & Hc).
    specialize (Hc a ltac:(lia) Ha). eapply H2; [exact Hj | exact Hr | lia].
Qed.

(** *** Schedules are executions *)

Lemma perform_step w ch e w' : perform w ch = Some (e, w') -> step w e w'.
Proof.
  unfold perform. destruct (crashed w) eqn:Hcr; [done|].
  destruct ch as [t waited|i|ws|st p].
  - destruct (thread_of w t) as [th|] eqn:Hth; [|done].
    destruct (code th) as [|i rest] eqn:Hcode; [done|].
    destruct (wait_readyb i (proc w) waited) eqn:Hrdy; [|done].
    destruct (exec_instr _ _ _ _ _ _) as [[e' o]|] eqn:Hex; [|done].
    intros [= <- <-]. eapply step_instr; try done.
    unfold wait_readyb in Hrdy. unfold wait_ready.
    destruct i, waited as [ws|]; try done.
    destruct (proc w); try done. by apply Z.eqb_eq in Hrdy as ->.
  - destruct (callers w !! i) as [th|] eqn:Hth; [|done].
    destruct (code th) eqn:Hcode; [|done].
    intros [= <- <-]. by eapply step_call.
  - destruct (proc w) eqn:Hp; try done.
    destruct ((0 <=? ws) && (ws <? 2 ^ 32)) eqn:Hws; [|done].
    intros [= <- <-]. apply step_exit; [done..|]. lia.
  - destruct (pump_open w st) eqn:Ho; [|done].
    destruct (pump_dest w st) as [dst|] eqn:Hd; [|done].
    intros [= <- <-]. by apply step_pump.
Qed.

Lemma run_app w tr1 w1 tr2 w2 : run w tr1 w1 -> run w1 tr2 w2 -> run w (tr1 ++ tr2) w2.
Proof.
  intros H1 H2. induction H2 as [|w1 tr2 w2 e w3 _ IH Hs].
  - by rewrite app_nil_r.
  - rewrite app_assoc. eapply run_snoc; [by apply IH | done].
Qed.

Lemma run_cons w e w1 tr w2 : step w e w1 -> run w1 tr w2 -> run w (e :: tr) w2.
Proof.
  intros Hs Hr. change (e :: tr) with ([e] ++ tr). eapply run_app; [|done].
  change [e] with ([] ++ [e]). eapply run_snoc; [constructor | done].
Qed.

Lemma perform_all_run chs w tr w' : perform_all w chs = Some (tr, w') -> run w tr w'.
Proof.
  revert w tr. induction chs as [|ch chs IH]; intros w tr; cbn.
  - intros [= <- <-]. constructor.
  - destruct (perform w ch) as [[e w1]|] eqn:Hp; [|done].
    destruct (perform_all w1 chs) as [[tr' w2]|] eqn:Hr; [|done].
    intros [= <- <-]. eapply run_cons; [by eapply perform_step | by apply IH].
Qed.

(** *** No goroutine appears or disappears after [Start] *)

Lemma step_goroutines w e w' :
  step w e w' -> length (goroutines (mach w')) = length (goroutines (mach w)).
Proof.
  intros Hstep. inversion Hstep as [w0 t th i rest waited e0 o Hcr Hth Hcode Hready Hexec
                     | w0 i th Hcr Hth Hcode | w0 ws Hcr Hproc Hws
                     | w0 st dst p Hcr Hopen Hdst]; subst; try done.
  - destruct o as [[[m1 s1] r1]|why]; [|done].
    apply exec_instr_frame in Hexec as (Hg & _).
    destruct t; cbn; rewrite ?length_insert; by rewrite Hg.
  - destruct (pumped_fields w st dst p) as (-> & _).
    by destruct (write_frame dst p (mach w)) as (_ & -> & _).
Qed.

Lemma run_goroutines w tr w' :
  run w tr w' -> length (goroutines (mach w')) = length (goroutines (mach w)).
Proof.
  induction 1 as [|w tr w1 e w2 _ IH Hs]; [done|].
  by rewrite (step_goroutines _ _ _ Hs).
Qed.

(** Claim C2. When [Start] returns an error, that error is the one the
    command's own start produced (the operating system's, or "already
    started"); no goroutine was launched; the session is returned all the
    same, holding the sentinel; and in every execution that follows no
    goroutine ever exists, the store is never written, and every read and
    every value returned by [getExitCode] is -1. *)
Theorem C2_failed_start launch c ow ew m0 s x m :
  Start launch c ow ew m0 = Ok ((s, Some x), m) ->
  goroutines m0 = [] ->
  (exists cmd, cmds m0 !! c = Some cmd /\
     (Proc cmd <> None /\ x = ErrAlreadyStarted \/ Proc cmd = None /\ launch = Some x)) /\
  goroutines m = [] /\
  s = {| Command := c; Out := next m0; Err := S (next m0); lock := None; exitCode := -1 |} /\
  forall n tr w, run (boot m s n) tr w ->
    goroutines (mach w) = [] /\
    exitCode (sess w) = -1 /\
    (forall i e, tr !! i = Some e -> is_write e = false) /\
    (forall i t v h, tr !! i = Some (EvRead t v h) -> v = -1) /\
    (forall i t v, tr !! i = Some (EvReturn t v) -> v = -1).
Proof.
  intros HS Hg.
  pose proof (Start_inv _ _ _ _ _ _ _ _ HS)
    as (cmd & bo & be & Hc & _ & _ & Hs & (cmd3 & Hx & _) & _ & _ & _ & Hgo & _).
  rewrite Hg in Hgo. cbn in Hgo.
  split.
  { exists cmd. split; [done|]. unfold exec.Start in Hx. cbn in Hx.
    destruct (Proc cmd); [left; by simplify_eq|right].
    destruct launch; by simplify_eq. }
  do 2 (split; [done|]).
  intros n tr w Hrun.
  pose proof (Inv_reach _ _ _ _ _ _ _ _ _ _ _ HS Hg Hrun) as HI.
  assert (Hnil : goroutines (mach w) = []).
  { apply run_goroutines in Hrun. cbn in Hrun. rewrite Hgo in Hrun.
    by apply nil_length_inv. }
  assert (Hw : written w = false) by (unfold written; by rewrite Hnil).
  pose proof (inv_store _ _ HI) as Hst. unfold store_inv in Hst. rewrite Hw in Hst.
  destruct Hst as (Hx' & Hnow & Hreads).
  do 4 (split; [done|]).
  intros i t v Hi. destruct (inv_ret _ _ HI _ _ _ Hi) as (k & _ & Hk & _). eauto.
Qed.

(** Claim C8. Once the watcher has recorded the exit status, any two
    queries entered afterwards return the same value: the recorded one. *)
Theorem C8_repeated_queries_agree launch c ow ew m0 s m n tr w :
  Start launch c ow ew m0 = Ok ((s, None), m) ->
  goroutines m0 = [] ->
  run (boot m s n) tr w ->
  forall j tw vw hw a1 b1 t1 v1 a2 b2 t2 v2,
    tr !! j = Some (EvWrite tw vw hw) ->
    tr !! a1 = Some (EvCall t1) -> tr !! b1 = Some (EvReturn t1 v1) ->
    (j < a1 < b1)%nat ->
    tr !! a2 = Some (EvCall t2) -> tr !! b2 = Some (EvReturn t2 v2) ->
    (j < a2 < b2)%nat ->
    v1 = v2 /\ v1 = vw /\ exists ws, proc w = PExited ws /\ vw = syscall.ExitStatus ws.
Proof.
  intros HS Hg Hrun j tw vw hw a1 b1 t1 v1 a2 b2 t2 v2 Hj Ha1 Hb1 Hlt1 Ha2 Hb2 Hlt2.
  pose proof (Inv_reach _ _ _ _ _ _ _ _ _ _ _ HS Hg Hrun) as HI.
  destruct (store_inv_reads _ _ (inv_store _ _ HI)) as (_ & H2 & H3 & _).
  destruct (inv_ret _ _ HI _ _ _ Hb1) as (k1 & _ & Hk1 & Hc1).
  destruct (inv_ret _ _ HI _ _ _ Hb2) as (k2 & _ & Hk2 & Hc2).
  specialize (Hc1 a1 ltac:(lia) Ha1). specialize (Hc2 a2 ltac:(lia) Ha2).
  assert (v1 = vw) as -> by (eapply H2; [exact Hj | exact Hk1 | lia]).
  assert (v2 = vw) as -> by (eapply H2; [exact Hj | exact Hk2 | lia]).
  do 2 (split; [done|]).
  destruct (H3 _ _ _ _ Hj) as (_ & _ & _ & ws & ? & ? & _). eauto.
Qed.

Lemma signaled_exit_status ws :
  syscall.Signaled ws = true -> syscall.ExitStatus ws = -1.
Proof.
  unfold syscall.Signaled, syscall.ExitStatus, syscall.Exited.
  intros [_ H]%andb_true_iff. apply negb_true_iff in H. by rewrite H.
Qed.

(** Claim C10. For a child killed by a signal, [ExitStatus] is -1, the
    sentinel: the value the watcher stores is -1, the store holds -1
    throughout, and every read and every value [getExitCode] returns is -1,
    before and after the termination alike. *)
Theorem C10_signal_death_reads_as_sentinel launch c ow ew m0 s m n tr w ws :
  Start launch c ow ew m0 = Ok ((s, None), m) ->
  goroutines m0 = [] ->
  run (boot m s n) tr w ->
  EvExit ws ∈ tr ->
  syscall.Signaled ws = true ->
  syscall.ExitStatus ws = -1 /\
  (forall j tw vw hw, tr !! j = Some (EvWrite tw vw hw) -> vw = -1) /\
  (forall i t v h, tr !! i = Some (EvRead t v h) -> v = -1) /\
  (forall i t v, tr !! i = Some (EvReturn t v) -> v = -1) /\
  exitCode (sess w) = -1.
Proof.
  intros HS Hg Hrun Hexit Hsig.
  pose proof (signaled_exit_status _ Hsig) as Hst.
  pose proof (Inv_reach _ _ _ _ _ _ _ _ _ _ _ HS Hg Hrun) as HI.
  apply (inv_exit _ _ HI) in Hexit.
  pose proof (inv_store _ _ HI) as Hstore. unfold store_inv in Hstore.
  assert (Hreads : forall i t v h, tr !! i = Some (EvRead t v h) -> v = -1).
  { destruct (written w).
    - destruct Hstore as (j0 & ws' & Hp & _ & Hj0 & _ & Hr).
      assert (ws' = ws) as -> by congruence.
      intros i t v h Hi. destruct (Hr _ _ _ _ Hi) as [Hlt Hgt].
      destruct (decide (i < j0)%nat); [auto|].
      destruct (decide (j0 < i)%nat); [rewrite <- Hst; auto|].
      assert (i = j0) as -> by lia. congruence.
    - by destruct Hstore as (_ & _ & Hr). }
  split; [done|]. split; [|split; [done|split]].
  - intros j tw vw hw Hj.
    destruct (store_inv_reads _ _ (inv_store _ _ HI)) as (_ & _ & H3 & _).
    destruct (H3 _ _ _ _ Hj) as (_ & _ & _ & ws' & Hp & -> & _).
    assert (ws' = ws) as -> by congruence. done.
  - intros i t v Hi. destruct (inv_ret _ _ HI _ _ _ Hi) as (k & _ & Hk & _). eauto.
  - destruct (written w).
    + destruct Hstore as (j0 & ws' & Hp & -> & _).
      assert (ws' = ws) as -> by congruence. done.
    + by destruct Hstore.
Qed.

(** *** Output capture *)

Lemma exec_instr_proc t i waited m s r e m1 s1 r1 :
  exec_instr t i waited m s r = Some (e, Ok (m1, s1, r1)) ->
  (cmds m1 !! Command s1) ≫= Proc = (cmds m !! Command s) ≫= Proc.
Proof.
  destruct i; cbn; repeat case_match; intros; simplify_eq; try done;
    cbn in *; rewrite ?lookup_insert_eq; cbn; by simplify_option_eq.
Qed.

Lemma after_mach_frame w t rest m1 s1 r1 :
  let w' := after w t rest (Ok (m1, s1, r1)) in
  bufs (mach w') = bufs m1 /\ cmds (mach w') = cmds m1 /\ proc w' = proc w.
Proof. by destruct t. Qed.

Lemma chunks_snoc st tr e :
  chunks st (tr ++ [e]) = chunks st tr ++ chunks st [e].
Proof. unfold chunks. by rewrite flat_map_app. Qed.

Lemma chunks_other st tr e :
  (forall st' p, e <> EvPump st' p) -> chunks st (tr ++ [e]) = chunks st tr.
Proof.
  intros He. rewrite chunks_snoc.
  destruct e; cbn; rewrite ?app_nil_r; try done. by edestruct He.
Qed.

Lemma capture_step c out err ow ew bo be tr w e w' :
  out <> err ->
  capture_inv c out err (effective out ow bo) (effective err ew be) tr w ->
  step w e w' ->
  capture_inv c out err (effective out ow bo) (effective err ew be) (tr ++ [e]) w'.
Proof.
  intros Hne (Hc & Hp & Ho & He) Hstep.
  inversion Hstep as [w0 t th i rest waited e0 o Hcr Hth Hcode Hready Hexec
                     | w0 i th Hcr Hth Hcode | w0 ws Hcr Hproc Hws
                     | w0 st dst p Hcr Hopen Hdst]; subst.
  - destruct o as [[[m1 s1] r1]|why].
    + pose proof (exec_instr_frame _ _ _ _ _ _ _ _ _ _ Hexec)
        as (_ & Hb & _ & _ & _ & Hcs & _).
      pose proof (exec_instr_proc _ _ _ _ _ _ _ _ _ _ Hexec) as Hpr.
      destruct (after_mach_frame w t rest m1 s1 r1) as (Hb' & Hc' & _).
      assert (He0 : forall st' p, e <> EvPump st' p).
      { intros st' p ->. destruct i; cbn in Hexec; repeat case_match; simplify_eq. }
      unfold capture_inv, contents. rewrite after_sess, Hb', Hc', Hb, !chunks_other by done.
      rewrite Hcs in Hpr |- *. by rewrite Hpr.
    + apply exec_instr_panic in Hexec as ->.
      unfold capture_inv. by rewrite !chunks_other.
  - unfold capture_inv. by rewrite !chunks_other.
  - unfold capture_inv. by rewrite !chunks_other.
  - destruct (pumped_fields w st dst p) as (Hm & Hs & _).
    destruct (write_frame dst p (mach w)) as (Hwc & _).
    unfold capture_inv. rewrite Hm, Hs, Hwc, !chunks_snoc, !concat_app.
    do 2 (split; [done|]).
    unfold pump_dest in Hdst.
    destruct (cmds (mach w) !! Command (sess w)) as [cmd|]; [|done]. cbn in Hp, Hdst.
    rewrite Hp in Hdst. cbn in Hdst.
    destruct st; injection Hdst as <-; cbn [chunks flat_map concat]; rewrite ?app_nil_r.
    + rewrite write_effective_captures, write_effective_other by congruence.
      rewrite Ho, He. cbn. by rewrite app_nil_r.
    + rewrite write_effective_captures, write_effective_other by congruence.
      rewrite Ho, He. cbn. by rewrite app_nil_r.
Qed.

(** Claim C5. [Start] attaches the two destinations to the command and only
    then attempts to start it (the journal shows the order); each
    destination begins with the stream's capture buffer; and when the start
    succeeds the child's pumps are bound to these destinations, so that in
    every execution that follows each capture buffer holds exactly the bytes
    its pump handed over: nothing bypasses it. *)
Theorem C5_capture_wired_before_start launch c ow ew m0 s e m :
  Start launch c ow ew m0 = Ok ((s, e), m) ->
  exists dout derr,
    journal m = journal m0 ++
      [EfNewBuffer (Out s); EfNewBuffer (Err s);
       EfAttachStdout c dout; EfAttachStderr c derr; EfStartAttempt c e] ++
      match e with None => [EfGo monitorForExit] | Some _ => [] end /\
    head (io.dests dout) = Some (DBuffer (Out s)) /\
    head (io.dests derr) = Some (DBuffer (Err s)) /\
    (cmds m !! c) ≫= Stdout = Some dout /\
    (cmds m !! c) ≫= Stderr = Some derr /\
    (e = None ->
     (cmds m !! c) ≫= Proc = Some {| pump_out := Some dout; pump_err := Some derr |} /\
     forall n tr w, run (boot m s n) tr w ->
       contents (mach w) (Out s) = concat (chunks StdoutStream tr) /\
       contents (mach w) (Err s) = concat (chunks StderrStream tr)).
Proof.
  intros HS.
  destruct (Start_command _ _ _ _ _ _ _ _ HS) as (bo & be & cmd & Ho & He & Hc & H1 & H2 & H3).
  pose proof (Start_inv _ _ _ _ _ _ _ _ HS)
    as (_ & bo' & be' & _ & Ho' & He' & Hs & _ & Hb & _ & _ & _ & Hj).
  assert (bo' = bo) as -> by congruence. assert (be' = be) as -> by congruence.
  exists (effective (Out s) ow bo), (effective (Err s) ew be).
  split; [by rewrite Hs|].
  split; [by destruct bo|]. split; [by destruct be|].
  rewrite Hc. cbn. do 2 (split; [done|]).
  intros ->. destruct (H3 eq_refl) as (_ & Hp). split; [done|].
  intros n tr w Hrun.
  cut (capture_inv c (Out s) (Err s) (effective (Out s) ow bo) (effective (Err s) ew be) tr w).
  { by intros (_ & _ & ? & ?). }
  assert (Hne : Out s <> Err s) by (rewrite Hs; cbn; lia).
  remember (boot m s n) as w0 eqn:Hw0.
  induction Hrun as [w|w tr w1 ev w2 _ IH Hstep].
  - subst w s. unfold capture_inv, contents. cbn in *. rewrite Hc. cbn.
    rewrite Hb, lookup_insert_eq.
    rewrite lookup_insert_ne by lia. by rewrite lookup_insert_eq.
  - eapply capture_step; [done | by apply IH | done].
Qed.

Lemma exec_instr_actor t i waited m s r e o :
  exec_instr t i waited m s r = Some (e, o) -> actor e = Some t.
Proof. destruct i; cbn; repeat case_match; intros; by simplify_eq. Qed.

(** A step of a caller inside [getExitCode] touches the mutex and the
    caller's own registers only. *)
Lemma caller_step_frame tr w e w' i :
  Inv tr w -> step w e w' -> actor e = Some (TCaller i) ->
  Command (sess w') = Command (sess w) /\
  Out (sess w') = Out (sess w) /\
  Err (sess w') = Err (sess w) /\
  exitCode (sess w') = exitCode (sess w) /\
  mach w' = mach w /\
  proc w' = proc w /\
  (forall v h, e = EvRead (TCaller i) v h ->
     v = exitCode (sess w) /\ h = Some (TCaller i) /\ lock (sess w) = Some (TCaller i)).
Proof.
  intros HI Hstep Hact.
  inversion Hstep as [w0 t th ins rest waited e0 o Hcr Hth Hcode Hready Hexec
                     | w0 k th Hcr Hth Hcode | w0 ws Hcr Hproc Hws
                     | w0 st dst p Hcr Hopen Hdst]; subst; try done.
  rewrite (exec_instr_actor _ _ _ _ _ _ _ _ Hexec) in Hact. injection Hact as ->.
  destruct o as [[[m1 s1] r1]|why].
  2:{ apply exec_instr_panic in Hexec as ->. by repeat split. }
  cbn in Hth. pose proof (inv_callers _ _ HI _ _ Hth) as Hin.
  pose proof (inv_lock _ _ HI (TCaller i) _ Hth) as Hmine.
  destruct (tails_getExitCode _ _ _ Hin Hcode) as [[-> ->]|[[-> ->]|[[-> ->]|[-> ->]]]];
    rewrite Hcode in Hmine; cbn in Hexec, Hmine; repeat case_match; simplify_eq;
    cbn; repeat split; try done; simplify_eq; try done; by apply Hmine.
Qed.

(** *** Queries do not wait for the child *)

(** With the mutex free, an idle caller's query runs to its return on its
    own. *)
Lemma query_alone w i th :
  crashed w = false -> callers w !! i = Some th -> code th = [] ->
  lock (sess w) = None ->
  exists w',
    run w [EvCall (TCaller i); EvLock (TCaller i);
           EvRead (TCaller i) (exitCode (sess w)) (Some (TCaller i));
           EvUnlock (TCaller i); EvReturn (TCaller i) (exitCode (sess w))] w' /\
    sess w' = sess w /\ mach w' = mach w /\ proc w' = proc w /\
    crashed w' = false.
Proof.
  intros Hcr Hth Hcode Hl.
  assert (Hlen : (i < length (callers w))%nat) by by eapply lookup_lt_Some.
  eexists. split.
  - apply (perform_all_run [Call i; Run (TCaller i) None; Run (TCaller i) None;
                            Run (TCaller i) None; Run (TCaller i) None]).
    cbn [perform_all]. unfold perform. cbn. rewrite Hcr, Hth, Hcode. cbn.
    rewrite list_lookup_insert_eq by done. cbn. rewrite Hl. cbn.
    rewrite list_lookup_insert_eq by (by rewrite length_insert). cbn.
    rewrite list_lookup_insert_eq by (by rewrite !length_insert). cbn.
    rewrite list_lookup_insert_eq by (by rewrite !length_insert). cbn.
    reflexivity.
  - cbn. destruct (sess w); cbn in *. by subst.
Qed.

(** Whoever holds the mutex lets go of it in at most two steps of its own,
    none of which depends on the child, unless it is the watcher about to
    dereference a nil process state. *)
Lemma release tr w t :
  Inv tr w -> crashed w = false -> lock (sess w) = Some t ->
  exists tr1 w1,
    run w tr1 w1 /\
    Forall (fun e => process_event e = false) tr1 /\
    (crashed w1 = true \/
     crashed w1 = false /\ lock (sess w1) = None /\
     forall i th, t <> TCaller i -> callers w !! i = Some th -> callers w1 !! i = Some th).
Proof.
  intros HI Hcr Hl.
  destruct (inv_owner _ _ HI _ Hl) as [th Hth].
  pose proof (proj2 (inv_lock _ _ HI _ _ Hth) Hl) as Hh.
  destruct t as [k|j]; cbn in Hth.
  - destruct (inv_go _ _ HI) as [Hnil|(th0 & Hg & Hin)]; [by rewrite Hnil in Hth|].
    rewrite Hg in Hth. destruct k; [|done]. injection Hth as ->.
    destruct (inv_cmd _ _ HI) as (cmd & Hcmd & _).
    cbn in Hin. rewrite !elem_of_cons, elem_of_nil in Hin.
    destruct Hin as [Hc|[Hc|[Hc|[Hc|[Hc|[]]]]]]; rewrite Hc in Hh; try done.
    + destruct (ProcessState cmd) as [ws|] eqn:Hps.
      * eexists _, _. split; [|split].
        -- apply (perform_all_run [Run (TGo 0) None; Run (TGo 0) None]).
           cbn [perform_all]. unfold perform.
           repeat (progress (cbn; rewrite ?Hcr, ?Hg, ?Hc, ?Hcmd, ?Hps, ?Hl)). reflexivity.
        -- by repeat constructor.
        -- right. by repeat split.
      * eexists _, _. split; [|split].
        -- apply (perform_all_run [Run (TGo 0) None]).
           cbn [perform_all]. unfold perform.
           repeat (progress (cbn; rewrite ?Hcr, ?Hg, ?Hc, ?Hcmd, ?Hps, ?Hl)). reflexivity.
        -- by repeat constructor.
        -- by left.
    + eexists _, _. split; [|split].
      * apply (perform_all_run [Run (TGo 0) None]).
        cbn [perform_all]. unfold perform.
        repeat (progress (cbn; rewrite ?Hcr, ?Hg, ?Hc, ?Hcmd, ?Hl)). reflexivity.
      * by repeat constructor.
      * right. by repeat split.
  - pose proof (inv_callers _ _ HI _ _ Hth) as Hin.
    assert (Hlen : (j < length (callers w))%nat) by by eapply lookup_lt_Some.
    cbn in Hin. rewrite !elem_of_cons, elem_of_nil in Hin.
    destruct Hin as [Hc|[Hc|[Hc|[Hc|[Hc|[]]]]]]; rewrite Hc in Hh; try done.
    + eexists _, _. split; [|split].
      * apply (perform_all_run [Run (TCaller j) None; Run (TCaller j) None]).
        cbn [perform_all]. unfold perform.
        cbn; rewrite ?Hcr, ?Hth, ?Hc, ?Hl. cbn.
        rewrite list_lookup_insert_eq by done. cbn. rewrite Hl. reflexivity.
      * by repeat constructor.
      * right. split; [done|]. split; [done|]. intros i th' Hne Hi. cbn.
        rewrite !list_lookup_insert_ne by congruence. done.
    + eexists _, _. split; [|split].
      * apply (perform_all_run [Run (TCaller j) None]).
        cbn [perform_all]. unfold perform.
        repeat (progress (cbn; rewrite ?Hcr, ?Hth, ?Hc, ?Hl)). reflexivity.
      * by repeat constructor.
      * right. split; [done|]. split; [done|]. intros i th' Hne Hi. cbn.
        rewrite !list_lookup_insert_ne by congruence. done.
Qed.

Lemma query_completes tr w i th :
  Inv tr w -> crashed w = false -> callers w !! i = Some th -> code th = [] ->
  exists tr' w',
    run w tr' w' /\
    Forall (fun e => process_event e = false) tr' /\
    (crashed w' = true \/
     last tr' = Some (EvReturn (TCaller i) (exitCode (sess w')))).
Proof.
  intros HI Hcr Hth Hcode.
  destruct (lock (sess w)) as [t|] eqn:Hl.
  - assert (Hne : t <> TCaller i).
    { intros ->. apply (inv_lock _ _ HI (TCaller i) _ Hth) in Hl. by rewrite Hcode in Hl. }
    destruct (release _ _ _ HI Hcr Hl) as (tr1 & w1 & Hrun1 & Hev1 & [Hc1|(Hc1 & Hl1 & Hcs1)]).
    { exists tr1, w1. auto. }
    destruct (query_alone w1 i th Hc1 (Hcs1 _ _ Hne Hth) Hcode Hl1)
      as (w2 & Hrun2 & Hs2 & _).
    eexists _, w2. split; [by eapply run_app|]. split.
    + apply Forall_app. split; [done|]. by repeat constructor.
    + right. rewrite Hs2. by rewrite last_app.
  - destruct (query_alone w i th Hcr Hth Hcode Hl) as (w2 & Hrun2 & Hs2 & _).
    eexists _, w2. split; [done|]. split; [by repeat constructor|].
    right. by rewrite Hs2.
Qed.

Lemma failed_wait_fate tr w e w' :
  Inv tr w ->
  length (goroutines (mach w)) = 1%nat ->
  EvWait (TGo 0) None ∈ tr ->
  step w e w' -> actor e = Some (TGo 0) ->
  e = EvLock (TGo 0) \/ (e = EvPanic (TGo 0) NilDereference /\ crashed w' = true).
Proof.
  intros HI Hlen Hin Hstep Hact.
  destruct (inv_wait _ _ HI) as [Hw1 Hw2]. destruct (Hw2 Hin) as [Hnw Hps].
  destruct (inv_go _ _ HI) as [Hnil|(th & Hg & Hcd)]; [by rewrite Hnil in Hlen|].
  inversion Hstep as [w0 t th' i rest waited e0 o Hcr Hth Hcode Hready Hexec
                     | w0 i th' Hcr Hth Hcode | w0 ws Hcr Hproc Hws
                     | w0 st dst p Hcr Hopen Hdst]; subst; try done.
  rewrite (exec_instr_actor _ _ _ _ _ _ _ _ Hexec) in Hact. injection Hact as ->.
  cbn in Hth. rewrite Hg in Hth. injection Hth as <-.
  unfold written in Hnw. rewrite Hg in Hnw.
  destruct (tails_monitor _ _ _ Hcd Hcode) as [[-> ->]|[[-> ->]|[[-> ->]|[-> ->]]]].
  - exfalso. by eapply Hw1.
  - cbn in Hexec. destruct (lock (sess w)); [done|]. left. by simplify_eq.
  - cbn in Hexec. destruct (cmds (mach w) !! Command (sess w)) as [cmd|]; cbn in Hps.
    + rewrite Hps in Hexec. right. by simplify_eq.
    + right. by simplify_eq.
  - by rewrite Hcode in Hnw.
Qed.

(** Claim C7. At every reachable state: a step made by a caller (inside
    [getExitCode]) changes neither the command handle, the buffers, the
    exit-code store, the heap nor the child, and a read returns the store's
    current value with the mutex held by the reader; when the mutex is free
    an idle caller's query runs to its return in its own five steps, returns
    the current value and leaves session and heap as they were; in any case
    the query can be brought to its return, with the store's value, by steps
    of the threads alone (the child need not terminate, no wait need come
    back, no output need arrive), unless the program crashes on the way;
    whoever holds the mutex is neither waiting for the child nor for the
    mutex; and every value returned was read under the lock during the
    call. *)
Theorem C7_query_is_a_read_under_lock launch c ow ew m0 s e m n tr w :
  Start launch c ow ew m0 = Ok ((s, e), m) ->
  goroutines m0 = [] ->
  run (boot m s n) tr w ->
  (forall ev w' i, step w ev w' -> actor ev = Some (TCaller i) ->
     Command (sess w') = Command (sess w) /\
     Out (sess w') = Out (sess w) /\
     Err (sess w') = Err (sess w) /\
     exitCode (sess w') = exitCode (sess w) /\
     mach w' = mach w /\
     proc w' = proc w /\
     (forall v h, ev = EvRead (TCaller i) v h ->
        v = exitCode (sess w) /\ h = Some (TCaller i) /\
        lock (sess w) = Some (TCaller i))) /\
  (forall i th, crashed w = false -> callers w !! i = Some th -> code th = [] ->
     (lock (sess w) = None ->
      exists w',
        run w [EvCall (TCaller i); EvLock (TCaller i);
               EvRead (TCaller i) (exitCode (sess w)) (Some (TCaller i));
               EvUnlock (TCaller i); EvReturn (TCaller i) (exitCode (sess w))] w' /\
        sess w' = sess w /\ mach w' = mach w /\ proc w' = proc w /\
        crashed w' = false) /\
     exists tr' w',
       run w tr' w' /\
       Forall (fun e => process_event e = false) tr' /\
       (crashed w' = true \/
        last tr' = Some (EvReturn (TCaller i) (exitCode (sess w'))))) /\
  (forall t th, thread_of w t = Some th -> lock (sess w) = Some t ->
     head (code th) <> Some IWait /\ head (code th) <> Some ILock) /\
  ret_inv tr.
Proof.
  intros HS Hg Hrun.
  pose proof (Inv_reach _ _ _ _ _ _ _ _ _ _ _ HS Hg Hrun) as HI.
  split; [intros ev w' i; by eapply caller_step_frame|].
  split; [|split; [|apply (inv_ret _ _ HI)]].
  - intros i th Hcr Hth Hcode. split.
    + by eapply query_alone.
    + by eapply query_completes.
  - intros t th Hth Hl. apply (inv_lock _ _ HI) in Hth. apply Hth in Hl.
    by destruct (code th) as [|[] ?].
Qed.

(** Claim C4 (what the code does instead). After a successful [Start], if
    the wait fails the command's process state stays nil, and the watcher,
    having taken the mutex, panics on line 85 with a nil dereference: the
    execution below exists, ends in a crashed program with the mutex still
    held and the store at -1, and admits no further step. In every
    execution in which the wait has failed, the store keeps -1 and is never
    written (that much of the claim holds), and the only steps left to the
    watcher are taking the mutex and that panic. *)
Theorem C4_failed_wait_panics launch c ow ew m0 s m n :
  Start launch c ow ew m0 = Ok ((s, None), m) ->
  goroutines m0 = [] ->
  (exists w,
     run (boot m s n)
       [EvWait (TGo 0) None; EvLock (TGo 0); EvPanic (TGo 0) NilDereference] w /\
     crashed w = true /\
     exitCode (sess w) = -1 /\
     lock (sess w) = Some (TGo 0) /\
     (forall e w', ~ step w e w')) /\
  (forall tr w, run (boot m s n) tr w -> EvWait (TGo 0) None ∈ tr ->
     exitCode (sess w) = -1 /\
     (forall i e, tr !! i = Some e -> is_write e = false) /\
     (forall e w', step w e w' -> actor e = Some (TGo 0) ->
        e = EvLock (TGo 0) \/
        (e = EvPanic (TGo 0) NilDereference /\ crashed w' = true))).
Proof.
  intros HS Hg. split.
  2:{ intros tr w Hrun Hin.
      pose proof (Inv_reach _ _ _ _ _ _ _ _ _ _ _ HS Hg Hrun) as HI.
      destruct (inv_wait _ _ HI) as [_ Hw2]. destruct (Hw2 Hin) as [Hnw _].
      pose proof (inv_store _ _ HI) as Hst. unfold store_inv in Hst. rewrite Hnw in Hst.
      destruct Hst as (Hx & Hnow & _). do 2 (split; [done|]).
      intros e w' Hstep Hact. eapply failed_wait_fate; try done.
      rewrite (run_goroutines _ _ _ Hrun). cbn.
      apply Start_inv in HS as (_ & _ & _ & _ & _ & _ & _ & _ & _ & _ & _ & -> & _).
      by rewrite Hg. }
  destruct (Start_command _ _ _ _ _ _ _ _ HS) as (bo & be & cmd & _ & _ & Hc & _ & _ & Hp).
  destruct (Hp eq_refl) as (_ & Hproc).
  apply Start_inv in HS as (_ & _ & _ & _ & _ & _ & -> & _ & _ & _ & _ & Hgo & _).
  rewrite Hg in Hgo. cbn in Hgo, Hc.
  eexists. split; [|split; [|split; [|split]]].
  - apply (perform_all_run [Run (TGo 0) None; Run (TGo 0) None; Run (TGo 0) None]).
    cbn [perform_all]. unfold perform.
    do 6 (cbn; rewrite ?Hgo, ?Hc, ?Hproc, ?lookup_insert_eq). reflexivity.
  - done.
  - done.
  - done.
  - intros e w' Hstep. inversion Hstep; subst; cbn in *; done.
Qed.

(** * Further properties of [Start] *)

Lemma usable_panics w why :
  usable w = Panic why <->
  why = ReflectIsNil /\ exists d, w = Some d /\ reflect.nilable (dyn_kind d) = false.
Proof.
  destruct w as [d|]; cbn [usable]; [|split; [done | by intros (_ & ? & ? & _)]].
  change (match reflect.IsNil (ValueOf d) with
          | Ok isnil => Ok (negb isnil) | Panic why0 => Panic why0 end)
    with (usable (Some d)).
  rewrite usable_Some. destruct (reflect.nilable (dyn_kind d)) eqn:Hk.
  - split; [done|]. intros (_ & d' & [= <-] & ?). congruence.
  - split; [intros [= <-]; eauto | by intros (-> & _)].
Qed.

(** Extra X1. [Start] panics in exactly two situations, and nothing else
    makes it panic: with a [reflect] panic when [outWriter] or [errWriter]
    is a non-nil interface whose dynamic type is of a kind [IsNil] does not
    accept (lines 63 and 67); and with a nil dereference when all writers
    pass that check and [command] points to no command (line 71). The
    operating system's answer to the start attempt plays no part. *)
Theorem Start_panics_exactly launch c ow ew m0 why :
  Start launch c ow ew m0 = Panic why <->
  (why = ReflectIsNil /\
   exists d, (ow = Some d \/ ew = Some d) /\ reflect.nilable (dyn_kind d) = false) \/
  (why = NilDereference /\ cmds m0 !! c = None /\
   (forall d, ow = Some d \/ ew = Some d -> reflect.nilable (dyn_kind d) = true)).
Proof.
  rewrite Start_panics. split.
  - intros [H|[(bo & Ho & H)|(bo & be & Ho & He & Hc & ->)]].
    + apply usable_panics in H as (-> & d & -> & Hk). left. eauto.
    + apply usable_panics in H as (-> & d & -> & Hk). left. eauto.
    + right. do 2 (split; [done|]). intros d [-> | ->].
      * rewrite usable_Some in Ho. by destruct (reflect.nilable (dyn_kind d)).
      * rewrite usable_Some in He. by destruct (reflect.nilable (dyn_kind d)).
  - intros [(-> & d & Hd & Hk)|(-> & Hc & Hall)].
    + destruct (usable ow) as [bo|why'] eqn:Ho.
      * right; left. exists bo. split; [done|]. destruct Hd as [-> | ->].
        -- rewrite usable_Some, Hk in Ho. done.
        -- by rewrite usable_Some, Hk.
      * left. by apply usable_panics in Ho as (-> & _).
    + right; right.
      assert (Hok : forall w, (forall d, w = Some d -> reflect.nilable (dyn_kind d) = true) ->
                exists b, usable w = Ok b).
      { intros [d|] Hd; [|by eexists]. rewrite usable_Some, (Hd d eq_refl). by eexists. }
      destruct (Hok ow) as [bo Ho]; [by auto|].
      destruct (Hok ew) as [be He]; [by auto|].
      by exists bo, be.
Qed.

Lemma Start_rest launch c ow ew m0 s e m :
  Start launch c ow ew m0 = Ok ((s, e), m) ->
  next m = S (S (next m0)) /\
  forall c', c' <> c -> cmds m !! c' = cmds m0 !! c'.
Proof.
  unfold Start, bind, NewBuffer, lift, ret. cbn [gbytes.NewBuffer].
  destruct (usable ow) as [bo|]; [|done]. destruct (usable ew) as [be|]; [|done].
  unfold assign_Stdout, assign_Stderr, command_Start. cbn.
  destruct (cmds m0 !! c) as [cmd|] eqn:Hc; [|done].
  cbn. rewrite lookup_insert_eq. cbn. rewrite lookup_insert_eq.
  destruct (exec.Start launch _) as [cmd3 [x|]]; cbn; intros [= <- <- <-]; cbn;
    (split; [done|]); intros c' Hne; by rewrite !lookup_insert_ne.
Qed.

(** The buffers of the session are the next two addresses, and allocating
    them leaves every other buffer alone. *)
Lemma Start_fresh launch c ow ew m0 s e m :
  Start launch c ow ew m0 = Ok ((s, e), m) ->
  Out s = next m0 /\ Err s = S (next m0) /\ next m = S (S (next m0)) /\
  (forall b, b <> Out s -> b <> Err s -> bufs m !! b = bufs m0 !! b).
Proof.
  intros HS.
  pose proof (Start_inv _ _ _ _ _ _ _ _ HS)
    as (_ & _ & _ & _ & _ & _ & -> & _ & Hb & _).
  destruct (Start_rest _ _ _ _ _ _ _ _ HS) as [Hn _].
  cbn. do 3 (split; [done|]). intros b ? ?. by rewrite Hb, !lookup_insert_ne.
Qed.

(** Extra X2. When [Start] returns, with or without an error, the session
    holds two buffers that are freshly allocated, distinct and empty, the
    handle it was given and an unlocked mutex; every other buffer and every
    other command is as before, the command's process state is untouched,
    no sink was handed anything, and the journal gained no buffer or sink
    traffic: [Start] itself writes no output. *)
Theorem Start_allocates_and_leaves_the_rest launch c ow ew m0 s e m :
  Start launch c ow ew m0 = Ok ((s, e), m) ->
  Out s = next m0 /\ Err s = S (next m0) /\ next m = S (S (next m0)) /\
  Command s = c /\ lock s = None /\
  contents m (Out s) = [] /\ contents m (Err s) = [] /\
  (forall b, b <> Out s -> b <> Err s -> bufs m !! b = bufs m0 !! b) /\
  (forall c', c' <> c -> cmds m !! c' = cmds m0 !! c') /\
  (cmds m !! c) ≫= ProcessState = (cmds m0 !! c) ≫= ProcessState /\
  observed m = observed m0 /\
  (exists added, journal m = journal m0 ++ added /\
                 forallb (fun x => negb (is_io x)) added = true).
Proof.
  intros HS.
  destruct (Start_fresh _ _ _ _ _ _ _ _ HS) as (Ho & He & Hn & Hbufs).
  destruct (Start_rest _ _ _ _ _ _ _ _ HS) as [_ Hframe].
  pose proof (Start_inv _ _ _ _ _ _ _ _ HS)
    as (cmd & bo & be & Hc & _ & _ & -> & (cmd3 & Hx & Hc3) & Hb & Hob & _ & _ & Hj).
  cbn in *. do 5 (split; [done|]).
  unfold contents. rewrite Hb.
  split; [rewrite lookup_insert_ne by lia; by rewrite lookup_insert_eq|].
  split; [by rewrite lookup_insert_eq|].
  split; [intros b ? ?; by rewrite !lookup_insert_ne|].
  split; [done|]. split.
  { rewrite Hc3, Hc. cbn. by apply exec_Start_inv in Hx as (_ & _ & -> & _). }
  split; [done|].
  eexists. split; [exact Hj|]. by destruct e.
Qed.

(** Starting a command that holds a process is refused, whatever the
    operating system would answer. *)
Lemma exec_Start_started launch c :
  Proc c <> None -> exec.Start launch c = (c, Some ErrAlreadyStarted).
Proof. unfold exec.Start. by destruct (Proc c). Qed.

(** Extra X3. Calling [Start] again on a command that a first [Start]
    started successfully returns a second session together with the error
    "already started": no second watcher is launched, the second session
    has buffers of its own, the buffers of the first session keep their
    contents, and the running child stays bound to the destinations of the
    first call, although lines 71 and 72 have re-attached the command's
    [Stdout] and [Stderr] to the new buffers. *)
Theorem Start_twice l1 l2 c ow1 ew1 ow2 ew2 m0 s1 m1 :
  Start l1 c ow1 ew1 m0 = Ok ((s1, None), m1) ->
  (forall d, ow2 = Some d \/ ew2 = Some d -> reflect.nilable (dyn_kind d) = true) ->
  exists s2 m2,
    Start l2 c ow2 ew2 m1 = Ok ((s2, Some ErrAlreadyStarted), m2) /\
    goroutines m2 = goroutines m1 /\
    Out s2 <> Out s1 /\ Out s2 <> Err s1 /\ Err s2 <> Out s1 /\ Err s2 <> Err s1 /\
    contents m2 (Out s1) = contents m1 (Out s1) /\
    contents m2 (Err s1) = contents m1 (Err s1) /\
    (cmds m2 !! c) ≫= Proc = (cmds m1 !! c) ≫= Proc /\
    (exists w, (cmds m2 !! c) ≫= Stdout = Some w /\
               head (io.dests w) = Some (DBuffer (Out s2))) /\
    (exists w, (cmds m2 !! c) ≫= Stderr = Some w /\
               head (io.dests w) = Some (DBuffer (Err s2))).
Proof.
  intros HS1 Hkinds.
  destruct (Start_command _ _ _ _ _ _ _ _ HS1) as (bo1 & be1 & cmd1 & _ & _ & Hc1 & _ & _ & Hp1).
  destruct (Hp1 eq_refl) as (_ & Hproc1).
  destruct (Start_fresh _ _ _ _ _ _ _ _ HS1) as (Ho1 & He1 & Hn1 & _).
  destruct (Start l2 c ow2 ew2 m1) as [[[s2 e2] m2]|why] eqn:HS2.
  2:{ apply Start_panics in HS2 as [H|[(bo & _ & H)|(bo & be & _ & _ & Hnil & _)]].
      - apply usable_panics in H as (_ & d & -> & Hk).
        rewrite (Hkinds d) in Hk by auto. done.
      - apply usable_panics in H as (_ & d & -> & Hk).
        rewrite (Hkinds d) in Hk by auto. done.
      - congruence. }
  pose proof (Start_inv _ _ _ _ _ _ _ _ HS2)
    as (cmd & bo & be & Hc & _ & _ & _ & (cmd3 & Hx & Hc3) & _ & _ & _ & Hgo & _).
  rewrite Hc1 in Hc. injection Hc as <-.
  rewrite exec_Start_started in Hx by (cbn; by rewrite Hproc1).
  injection Hx as <- <-.
  destruct (Start_fresh _ _ _ _ _ _ _ _ HS2) as (Ho2 & He2 & _ & Hbufs).
  exists s2, m2. split; [done|]. split; [by rewrite Hgo, app_nil_r|].
  rewrite Ho2, He2, Ho1, He1, Hn1. do 4 (split; [lia|]).
  unfold contents. rewrite !Hbufs by (rewrite ?Ho2, ?He2, ?Hn1; lia).
  do 2 (split; [done|]). rewrite Hc3, Hc1. cbn. split; [done|].
  split; eexists; (split; [done|]); rewrite ?Hn1; [by destruct bo | by destruct be].
Qed.

(** * Further properties of the watcher and of the queries *)

(** *** Executions, taken apart *)

Lemma run_snoc_inv w0 tr e w :
  run w0 (tr ++ [e]) w -> exists w1, run w0 tr w1 /\ step w1 e w.
Proof.
  intros H. remember (tr ++ [e]) as l eqn:Hl. destruct H as [|w0 tr' w1 e' w2 Hrun Hstep].
  - by destruct tr.
  - apply app_inj_tail in Hl as [-> ->]. eauto.
Qed.

Lemma run_split w0 tr1 tr2 w :
  run w0 (tr1 ++ tr2) w -> exists w1, run w0 tr1 w1 /\ run w1 tr2 w.
Proof.
  revert w. induction tr2 as [|e tr2 IH] using rev_ind; intros w H.
  - rewrite app_nil_r in H. exists w. split; [done|constructor].
  - rewrite app_assoc in H. apply run_snoc_inv in H as (w1 & Hrun & Hstep).
    destruct (IH _ Hrun) as (w1' & H1 & H2).
    exists w1'. split; [done|]. by econstructor.
Qed.

Lemma run_one w e w' : run w [e] w' -> step w e w'.
Proof.
  intros H. apply (run_snoc_inv w [] e) in H as (w1 & Hrun & Hstep).
  inversion Hrun as [|? tr ? ? ? ? ? Htr]; subst; [done | by destruct tr].
Qed.

(** An execution seen at its [j]th event. *)
Lemma run_at w0 tr w (j : nat) e :
  run w0 tr w -> tr !! j = Some e ->
  exists w1 w2, run w0 (take j tr) w1 /\ step w1 e w2 /\
                run w0 (take j tr ++ [e]) w2 /\ run w2 (drop (S j) tr) w.
Proof.
  intros Hrun Hj. rewrite <- (take_drop_middle _ _ _ Hj) in Hrun.
  apply run_split in Hrun as (w1 & H1 & H2).
  change (e :: drop (S j) tr) with ([e] ++ drop (S j) tr) in H2.
  apply run_split in H2 as (w2 & H2 & H3). apply run_one in H2.
  exists w1, w2. do 2 (split; [done|]). split; [by econstructor | done].
Qed.

Lemma step_alive w e w' : step w e w' -> crashed w = false.
Proof. by inversion 1. Qed.

(** A crashed program makes no step. *)
Lemma run_crashed w tr w' : run w tr w' -> crashed w = true -> tr = [] /\ w' = w.
Proof.
  induction 1 as [|w tr w1 e w2 _ IH Hs]; intros Hc; [done|].
  destruct (IH Hc) as [-> ->]. apply step_alive in Hs. congruence.
Qed.

Lemma by_thread_snoc t tr e :
  by_thread t (tr ++ [e]) = by_thread t tr ++ (if decide (actor e = Some t) then [e] else []).
Proof.
  unfold by_thread. by rewrite filter_app.
Qed.

Lemma by_thread_other t tr e :
  actor e <> Some t -> by_thread t (tr ++ [e]) = by_thread t tr.
Proof. intros H. rewrite by_thread_snoc, decide_False by done. apply app_nil_r. Qed.

Lemma by_thread_own t tr e :
  actor e = Some t -> by_thread t (tr ++ [e]) = by_thread t tr ++ [e].
Proof. intros H. by rewrite by_thread_snoc, decide_True. Qed.

Lemma exec_instr_same t i waited m s r e m1 s1 r1 :
  i <> IWait ->
  exec_instr t i waited m s r = Some (e, Ok (m1, s1, r1)) ->
  m1 = m /\ Command s1 = Command s.
Proof. destruct i; cbn; repeat case_match; intros; by simplify_eq. Qed.

Lemma watcher_frame tr w w' e :
  watcher_inv tr w -> crashed w = false -> crashed w' = false ->
  (forall k, actor e <> Some (TGo k)) ->
  goroutines (mach w') = goroutines (mach w) ->
  cmds (mach w') !! Command (sess w') = cmds (mach w) !! Command (sess w) ->
  watcher_inv (tr ++ [e]) w'.
Proof.
  intros (H1 & H2 & H3 & H4) Hc Hc' He Hg Hcmd.
  unfold watcher_inv, progress in *. rewrite Hg, Hcmd, Hc'. rewrite Hc in H4.
  setoid_rewrite by_thread_other; [|done..].
  split; [done|]. split; [by intros [_ ?]%H2|]. split; [done|]. done.
Qed.

Lemma watcher_step tr w e w' :
  Inv tr w -> watcher_inv tr w -> step w e w' -> watcher_inv (tr ++ [e]) w'.
Proof.
  intros HI HW Hstep.
  inversion Hstep as [w0 t th i rest waited e0 o Hcr Hth Hcode Hready Hexec
                     | w0 i th Hcr Hth Hcode | w0 ws Hcr Hproc Hws
                     | w0 st dst p Hcr Hopen Hdst]; subst.
  - destruct t as [k|k].
    + cbn in Hth.
      destruct (inv_go _ _ HI) as [Hnil|(th0 & Hg & Hcd)]; [by rewrite Hnil in Hth|].
      rewrite Hg in Hth. destruct k as [|k]; [|by destruct k]. injection Hth as ->.
      destruct HW as (H1 & _ & _ & H4). destruct (H4 _ Hg) as (st & Hby & Hps & _ & Hst).
      unfold progress in Hby. rewrite Hcr in Hby.
      destruct (inv_cmd _ _ HI) as (cmd & Hcmd & Hproc & _).
      destruct Hproc as [pr Hproc]; [by rewrite Hg|].
      pose proof (inv_lock _ _ HI (TGo 0) th) as Hlock. cbn in Hlock. rewrite Hg in Hlock.
      specialize (Hlock eq_refl).
      assert (Hk : forall k, k <> 0%nat -> by_thread (TGo k) (tr ++ [e]) = []).
      { intros k Hk. rewrite by_thread_other; [by apply H1|].
        rewrite (exec_instr_actor _ _ _ _ _ _ _ _ Hexec). congruence. }
      split; [done|]. clear Hk H1 H4.
      rewrite by_thread_own by (by eapply exec_instr_actor).
      destruct (tails_monitor _ _ _ Hcd Hcode) as [[-> ->]|[[-> ->]|[[-> ->]|[-> ->]]]];
        rewrite Hcode in *; cbn in Hexec, Hby, Hlock.
      * rewrite Hcmd, Hproc in Hexec. injection Hexec as <- <-. cbn. rewrite Hg. cbn.
        split; [done|]. split; [done|]. intros th' [= <-]. exists waited. cbn.
        rewrite Hby, lookup_insert_eq. by repeat split; try lia.
      * destruct (lock (sess w)); [done|]. injection Hexec as <- <-. cbn. rewrite Hg. cbn.
        split; [done|]. split; [done|]. intros th' [= <-]. exists st. cbn.
        rewrite Hby. repeat split; try done; try lia. intros _. by apply Hps.
      * rewrite Hcmd in Hexec, Hps. cbn in Hps. specialize (Hps ltac:(done)).
        rewrite Hps in Hexec. destruct st as [ws|]; injection Hexec as <- <-; cbn; rewrite Hg.
        -- split; [done|]. split; [done|]. intros th' [= <-]. exists (Some ws). cbn.
           rewrite Hby, Hcmd. cbn. destruct Hlock as [-> _]; [done|].
           by repeat split.
        -- split; [done|]. split; [intros _; by rewrite last_snoc|].
           intros th' [= <-]. exists None. unfold progress. cbn. rewrite Hcode, Hby, Hcmd. cbn.
           by repeat split; try lia.
      * destruct Hlock as [Hl _]. rewrite Hl in Hexec by done. injection Hexec as <- <-.
        cbn. rewrite Hg. cbn.
        split; [done|]. split; [done|]. intros th' [= <-].
        destruct Hst as [ws ->]; [cbn; lia|]. exists (Some ws). cbn.
        rewrite Hby. cbn. repeat split; try done. intros _. by apply Hps.
    + cbn in Hth. pose proof (inv_callers _ _ HI _ _ Hth) as Hin.
      pose proof (inv_lock _ _ HI (TCaller k) _ Hth) as Hmine. rewrite Hcode in Hmine.
      assert (Ha : forall j, actor e <> Some (TGo j)).
      { intros j. by rewrite (exec_instr_actor _ _ _ _ _ _ _ _ Hexec). }
      destruct o as [[[m1 s1] r1]|why].
      * apply exec_instr_same in Hexec as [-> Hc].
        2:{ destruct (tails_getExitCode _ _ _ Hin Hcode)
              as [[-> ->]|[[-> ->]|[[-> ->]|[-> ->]]]]; done. }
        eapply watcher_frame; try done. cbn. by rewrite Hc.
      * exfalso.
        destruct (tails_getExitCode _ _ _ Hin Hcode) as [[-> ->]|[[-> ->]|[[-> ->]|[-> ->]]]];
          cbn in Hexec, Hmine; repeat case_match; simplify_eq.
        destruct Hmine as [Hm _]. by specialize (Hm eq_refl).
  - by eapply watcher_frame.
  - by eapply watcher_frame.
  - destruct (pumped_fields w st dst p) as (Hm & Hs & _).
    destruct (write_frame dst p (mach w)) as (Hwc & Hwg & _).
    eapply watcher_frame; try done.
    + unfold pumped. by destruct (io.write dst p (mach w)).
    + by rewrite Hm.
    + by rewrite Hm, Hs, Hwc.
Qed.

Lemma watcher_reach launch c ow ew m0 s e m n tr w :
  Start launch c ow ew m0 = Ok ((s, e), m) ->
  goroutines m0 = [] ->
  run (boot m s n) tr w ->
  Inv tr w /\ watcher_inv tr w.
Proof.
  intros HS Hg Hrun.
  pose proof (Inv_boot _ _ _ _ _ _ _ _ n HS Hg) as HI0.
  assert (HW0 : watcher_inv [] (boot m s n)).
  { apply Start_inv in HS as (_ & _ & _ & _ & _ & _ & _ & _ & _ & _ & _ & Hgo & _).
    rewrite Hg in Hgo. cbn in Hgo. unfold watcher_inv, progress. cbn. rewrite Hgo.
    split; [done|]. split; [done|]. split; [done|].
    intros th Hth. exists None. destruct e; simplify_eq/=.
    split; [done|]. split; [done|]. split; [done|]. lia. }
  clear HS Hg. remember (boot m s n) as w0 eqn:Hw0. clear Hw0.
  induction Hrun as [w|w tr w1 ev w2 _ IH Hstep]; [done|].
  destruct (IH HI0 HW0) as [HI HW].
  split; [by eapply Inv_step | by eapply watcher_step].
Qed.

Lemma exec_instr_panics t i waited m s r t' why o :
  exec_instr t i waited m s r = Some (EvPanic t' why, o) -> o = Panic why.
Proof. destruct i; cbn; repeat case_match; intros; by simplify_eq. Qed.

Lemma exec_instr_waits t i waited m s r t' ws o :
  exec_instr t i waited m s r = Some (EvWait t' (Some ws), o) ->
  i = IWait /\ waited = Some ws.
Proof. destruct i; cbn; repeat case_match; intros; by simplify_eq. Qed.

Lemma lookup_take_elem {A} (l : list A) (j : nat) (x : A) :
  x ∈ take j l -> exists a, (a < j)%nat /\ l !! a = Some x.
Proof.
  intros (a & Ha)%list_elem_of_lookup. apply lookup_take_Some in Ha as [? ?]. eauto.
Qed.

Lemma exit_status_range ws : -1 <= syscall.ExitStatus ws <= 255.
Proof.
  unfold syscall.ExitStatus. destruct (negb (syscall.Exited ws)); [lia|].
  change 255 with (Z.ones 8). rewrite Z.land_ones by lia. change (2 ^ 8) with 256.
  assert (H : 0 < 256) by done.
  pose proof (Z.mod_pos_bound (Z.shiftr ws syscall.shift) 256 H).
  change (Z.ones 8) with 255. lia.
Qed.

Lemma exit_status_code ws :
  syscall.ExitStatus ws <> -1 ->
  syscall.Exited ws = true /\ syscall.ExitStatus ws = Z.land (Z.shiftr ws 8) 255.
Proof. unfold syscall.ExitStatus. by destruct (syscall.Exited ws). Qed.

(** A wait comes back with a status only after the child terminated with
    it. *)
Lemma wait_after_exit tr w0 w (i : nat) t ws :
  Inv [] w0 -> run w0 tr w -> tr !! i = Some (EvWait t (Some ws)) ->
  exists x, (x < i)%nat /\ tr !! x = Some (EvExit ws).
Proof.
  intros HI0 Hrun Hi.
  destruct (run_at _ _ _ _ _ Hrun Hi) as (w1 & w2 & Hrun1 & Hstep & _).
  pose proof (Inv_run _ _ _ HI0 Hrun1) as HI1.
  inversion Hstep as [w' t' th ins rest waited e0 o Hcr Hth Hcode Hready Hexec
                     | | |]; subst.
  apply exec_instr_waits in Hexec as [-> ->]. cbn in Hready.
  apply (inv_exit _ _ HI1) in Hready. by apply lookup_take_elem.
Qed.

(** A read that did not see the sentinel was preceded by the termination of
    the child with a status whose exit status it is. *)
Lemma read_after_exit tr w0 w (k : nat) t v h :
  Inv [] w0 -> run w0 tr w -> tr !! k = Some (EvRead t v h) -> v <> -1 ->
  exists x ws, (x < k)%nat /\ tr !! x = Some (EvExit ws) /\ v = syscall.ExitStatus ws.
Proof.
  intros HI0 Hrun Hk Hv.
  destruct (run_at _ _ _ _ _ Hrun Hk) as (w1 & w2 & Hrun1 & Hstep & Hrun2 & _).
  pose proof (Inv_run _ _ _ HI0 Hrun2) as HI2.
  assert (Hlen : length (take k tr) = k).
  { apply length_take_le. apply lookup_lt_Some in Hk. lia. }
  assert (Hlast : (take k tr ++ [EvRead t v h]) !! k = Some (EvRead t v h)).
  { rewrite lookup_app_r by lia. by rewrite Hlen, Nat.sub_diag. }
  pose proof (inv_store _ _ HI2) as Hst. unfold store_inv in Hst.
  destruct (written w2).
  - destruct Hst as (j & ws & Hp & _ & Hj & _ & Hreads).
    destruct (Hreads _ _ _ _ Hlast) as [Hlt Hgt].
    destruct (decide (k < j)%nat) as [?|Hn]; [by specialize (Hlt ltac:(done))|].
    assert (k <> j) by (intros ->; congruence).
    specialize (Hgt ltac:(lia)).
    apply (inv_exit _ _ HI2) in Hp.
    apply elem_of_app in Hp as [Hp|Hp%list_elem_of_singleton]; [|done].
    apply lookup_take_elem in Hp as (x & Hx & Hp). eauto.
  - destruct Hst as (_ & _ & Hreads). by specialize (Hreads _ _ _ _ Hlast).
Qed.

Lemma exit_once tr w0 w (x y : nat) ws ws' :
  Inv [] w0 -> run w0 tr w ->
  tr !! x = Some (EvExit ws) -> tr !! y = Some (EvExit ws') -> (x < y)%nat -> False.
Proof.
  intros HI0 Hrun Hx Hy Hlt.
  destruct (run_at _ _ _ _ _ Hrun Hy) as (w1 & w2 & Hrun1 & Hstep & _).
  pose proof (Inv_run _ _ _ HI0 Hrun1) as HI1.
  assert (Hin : EvExit ws ∈ take y tr).
  { apply list_elem_of_lookup. exists x. by apply lookup_take_Some. }
  apply (inv_exit _ _ HI1) in Hin.
  inversion Hstep as [w' t' th ins rest waited e0 o Hcr Hth Hcode Hready Hexec
                     | | w' ws0 Hcr Hproc Hws |]; subst.
  - apply exec_instr_actor in Hexec. done.
  - congruence.
Qed.

Lemma exit_in_range tr w0 w (x : nat) ws :
  run w0 tr w -> tr !! x = Some (EvExit ws) -> 0 <= ws < 2 ^ 32.
Proof.
  intros Hrun Hx.
  destruct (run_at _ _ _ _ _ Hrun Hx) as (w1 & w2 & _ & Hstep & _).
  inversion Hstep as [w' t' th ins rest waited e0 o Hcr Hth Hcode Hready Hexec
                     | | w' ws0 Hcr Hproc Hws |]; subst; [|done].
  apply exec_instr_actor in Hexec. done.
Qed.

(** Extra X4. In every execution after [Start], a value [getExitCode]
    returns is either the sentinel -1 or a genuine exit code: the child had
    terminated before the return, by a normal exit, and the value is bits 8
    to 15 of its wait status, a number from 0 to 255. The store holds a
    value from -1 to 255 at all times, the child terminates at most once,
    and a wait comes back with a status only after the child terminated
    with it. *)
Theorem answers_are_exit_codes launch c ow ew m0 s e m n tr w :
  Start launch c ow ew m0 = Ok ((s, e), m) ->
  goroutines m0 = [] ->
  run (boot m s n) tr w ->
  (forall b t v, tr !! b = Some (EvReturn t v) ->
     v = -1 \/
     exists x ws, (x < b)%nat /\ tr !! x = Some (EvExit ws) /\
                  0 <= ws < 2 ^ 32 /\ syscall.Exited ws = true /\
                  v = Z.land (Z.shiftr ws 8) 255 /\ 0 <= v <= 255) /\
  -1 <= exitCode (sess w) <= 255 /\
  (forall x y ws ws', tr !! x = Some (EvExit ws) -> tr !! y = Some (EvExit ws') -> x = y) /\
  (forall i t ws, tr !! i = Some (EvWait t (Some ws)) ->
     exists x, (x < i)%nat /\ tr !! x = Some (EvExit ws)).
Proof.
  intros HS Hg Hrun.
  pose proof (Inv_boot _ _ _ _ _ _ _ _ n HS Hg) as HI0.
  pose proof (Inv_run _ _ _ HI0 Hrun) as HI.
  split; [|split; [|split]].
  - intros b t v Hb. destruct (decide (v = -1)) as [?|Hv]; [by left|right].
    destruct (inv_ret _ _ HI _ _ _ Hb) as (k & Hk & Hr & _).
    destruct (read_after_exit _ _ _ _ _ _ _ HI0 Hrun Hr Hv) as (x & ws & Hx & Hex & ->).
    destruct (exit_status_code _ Hv) as [Hexd Heq].
    pose proof (exit_status_range ws).
    exists x, ws. split; [lia|]. split; [done|].
    split; [by eapply exit_in_range|]. split; [done|]. split; [done|]. lia.
  - pose proof (inv_store _ _ HI) as Hst. unfold store_inv in Hst.
    destruct (written w).
    + destruct Hst as (_ & ws & _ & -> & _). apply exit_status_range.
    + destruct Hst as (-> & _). lia.
  - intros x y ws ws' Hx Hy.
    destruct (lt_eq_lt_dec x y) as [[?|?]|?]; [|done|]; exfalso.
    + by eapply (exit_once tr _ _ x y).
    + by eapply (exit_once tr _ _ y x).
  - intros i t ws Hi. by eapply wait_after_exit.
Qed.

Lemma watcher_crash tr w :
  Inv tr w -> watcher_inv tr w -> crashed w = true ->
  last tr = Some (EvPanic (TGo 0) NilDereference) /\
  by_thread (TGo 0) tr = watcher_script None.
Proof.
  intros HI (_ & H2 & H3 & H4) Hc. split; [by apply H3|].
  destruct (inv_go _ _ HI) as [Hnil|(th & Hg & _)].
  { destruct (H2 Hnil). congruence. }
  destruct (H4 _ Hg) as (st & Hby & _ & Hcr & _). destruct (Hcr Hc) as [-> Hcode].
  unfold progress in Hby. by rewrite Hc, Hcode in Hby.
Qed.

(** Extra X5. The only panic there can be after [Start] is the nil
    dereference of line 85 in the watcher, and it needs a failed wait
    before it: [getExitCode] never panics, no mutex is ever unlocked while
    unlocked, and a watcher whose wait came back with a status does not
    panic. The panic is the last event of the execution; a session whose
    [Start] returned an error never crashes. *)
Theorem only_a_failed_wait_crashes launch c ow ew m0 s e m n tr w :
  Start launch c ow ew m0 = Ok ((s, e), m) ->
  goroutines m0 = [] ->
  run (boot m s n) tr w ->
  (forall j t why, tr !! j = Some (EvPanic t why) ->
     t = TGo 0 /\ why = NilDereference /\ S j = length tr /\ crashed w = true /\
     exists a, (a < j)%nat /\ tr !! a = Some (EvWait (TGo 0) None)) /\
  (crashed w = true -> last tr = Some (EvPanic (TGo 0) NilDereference)) /\
  (e <> None -> crashed w = false) /\
  (forall ws, EvWait (TGo 0) (Some ws) ∈ tr -> crashed w = false).
Proof.
  intros HS Hg Hrun.
  destruct (watcher_reach _ _ _ _ _ _ _ _ _ _ _ HS Hg Hrun) as [HI HW].
  split; [|split; [|split]].
  - intros j t why Hj.
    destruct (run_at _ _ _ _ _ Hrun Hj) as (w1 & w2 & _ & Hstep & Hrun2 & Hrest).
    destruct (watcher_reach _ _ _ _ _ _ _ _ _ _ _ HS Hg Hrun2) as [HI2 HW2].
    assert (Hc2 : crashed w2 = true).
    { inversion Hstep as [w' t' th ins rest waited e0 o Hcr Hth Hcode Hready Hexec
                         | | |]; subst.
      by rewrite (exec_instr_panics _ _ _ _ _ _ _ _ _ Hexec). }
    destruct (run_crashed _ _ _ Hrest Hc2) as [Hdrop ->].
    destruct (watcher_crash _ _ HI2 HW2 Hc2) as [Hlast Hby].
    rewrite last_snoc in Hlast. injection Hlast as -> ->.
    do 2 (split; [done|]). split.
    { apply lookup_lt_Some in Hj. apply (f_equal length) in Hdrop.
      rewrite length_drop in Hdrop. cbn in Hdrop. lia. }
    split; [done|].
    assert (Hin : EvWait (TGo 0) None ∈ by_thread (TGo 0) (take j tr ++ [EvPanic (TGo 0) NilDereference])).
    { rewrite Hby. cbn. apply list_elem_of_here. }
    apply list_elem_of_filter in Hin as [_ Hin].
    apply elem_of_app in Hin as [Hin|Hin%list_elem_of_singleton]; [|done].
    by apply lookup_take_elem.
  - intros Hc. by apply (watcher_crash _ _ HI HW).
  - intros He. destruct HW as (_ & H2 & _). apply H2.
    apply Start_inv in HS as (_ & _ & _ & _ & _ & _ & _ & _ & _ & _ & _ & Hgo & _).
    rewrite Hg in Hgo. destruct e; [|done]. cbn in Hgo.
    pose proof (run_goroutines _ _ _ Hrun) as Hlen. cbn in Hlen. rewrite Hgo in Hlen.
    by destruct (goroutines (mach w)).
  - intros ws Hin. destruct (crashed w) eqn:Hc; [|done].
    destruct (watcher_crash _ _ HI HW Hc) as [_ Hby].
    assert (Hin' : EvWait (TGo 0) (Some ws) ∈ by_thread (TGo 0) tr)
      by (by apply list_elem_of_filter).
    rewrite Hby in Hin'. cbn in Hin'.
    rewrite !elem_of_cons, elem_of_nil in Hin'. by destruct Hin' as [?|[?|[?|[]]]].
Qed.

(** Extra X6. The watcher is the only goroutine that ever acts, and none
    acts when [Start] returned an error. What it does is a prefix of one
    fixed script, chosen by what its single wait yields: wait, lock, store
    the exit status, unlock; or, after a failed wait, wait, lock, panic. So
    it makes at most four steps, waits once, locks once and never loops.
    Past its wait the command holds what the wait yielded, a status only
    if the child terminated with it; and when the script is complete the
    store holds that exit status and the watcher has released the mutex
    (or, after the failed wait, the program has crashed with the store at
    -1 and the mutex held). *)
Theorem watcher_follows_its_script launch c ow ew m0 s e m n tr w :
  Start launch c ow ew m0 = Ok ((s, e), m) ->
  goroutines m0 = [] ->
  run (boot m s n) tr w ->
  (forall k, k <> 0%nat -> by_thread (TGo k) tr = []) /\
  (e <> None -> by_thread (TGo 0) tr = []) /\
  (length (by_thread (TGo 0) tr) <= 4)%nat /\
  exists st,
    by_thread (TGo 0) tr `prefix_of` watcher_script st /\
    (by_thread (TGo 0) tr <> [] ->
       (cmds (mach w) !! Command (sess w)) ≫= ProcessState = st /\
       forall ws, st = Some ws -> proc w = PExited ws) /\
    (by_thread (TGo 0) tr = watcher_script st ->
       match st with
       | Some ws => exitCode (sess w) = syscall.ExitStatus ws /\ lock (sess w) <> Some (TGo 0)
       | None => crashed w = true /\ exitCode (sess w) = -1 /\ lock (sess w) = Some (TGo 0)
       end).
Proof.
  intros HS Hg Hrun.
  destruct (watcher_reach _ _ _ _ _ _ _ _ _ _ _ HS Hg Hrun) as [HI HW].
  pose proof HW as (H1 & H2 & H3 & H4).
  split; [done|].
  assert (Hfail : e <> None -> goroutines (mach w) = []).
  { intros He.
    apply Start_inv in HS as (_ & _ & _ & _ & _ & _ & _ & _ & _ & _ & _ & Hgo & _).
    rewrite Hg in Hgo. destruct e; [|done]. cbn in Hgo.
    pose proof (run_goroutines _ _ _ Hrun) as Hlen. cbn in Hlen. rewrite Hgo in Hlen.
    by destruct (goroutines (mach w)). }
  split; [intros He; by apply H2, Hfail|].
  destruct (inv_go _ _ HI) as [Hnil|(th & Hgo & Hcd)].
  { destruct (H2 Hnil) as [_ ->]. split; [cbn; lia|]. exists None.
    split; [apply prefix_nil|]. by split. }
  destruct (H4 _ Hgo) as (st & Hby & Hps & Hcr & Hst).
  split.
  { rewrite Hby, length_take. destruct st; cbn; lia. }
  exists st. split; [rewrite Hby; apply prefix_take|].
  pose proof (inv_lock _ _ HI (TGo 0) th) as Hlock. cbn in Hlock. rewrite Hgo in Hlock.
  specialize (Hlock eq_refl).
  split.
  - intros Hne.
    assert (Hcode : code th <> monitorForExit).
    { intros Hcode. unfold progress in Hby. rewrite Hcode in Hby.
      destruct (crashed w);
        [destruct (Hcr eq_refl) as [_ Hc2]; rewrite Hcode in Hc2; done|].
      by rewrite Hby in Hne. }
    split; [by apply Hps|]. intros ws ->.
    destruct (inv_cmd _ _ HI) as (cmd & Hcmd & _ & Hx).
    specialize (Hps Hcode). rewrite Hcmd in Hps. by eapply Hx.
  - intros Hfull. rewrite Hfull in Hby. unfold progress in Hby.
    pose proof (inv_store _ _ HI) as Hstore. unfold store_inv, written in Hstore.
    rewrite Hgo in Hstore.
    destruct st as [ws|].
    + destruct (crashed w); [by destruct (Hcr eq_refl)|].
      assert (Hcode : code th = []).
      { apply (f_equal length) in Hby. rewrite length_take in Hby. cbn in Hby.
        destruct (code th); [done|cbn in Hby; lia]. }
      rewrite Hcode in Hstore, Hlock, Hps. cbn in Hlock.
      destruct Hstore as (_ & ws' & Hp & -> & _).
      destruct (inv_cmd _ _ HI) as (cmd & Hcmd & _ & Hx).
      specialize (Hps ltac:(done)). rewrite Hcmd in Hps. cbn in Hps.
      rewrite (Hx th ws Hgo) in Hp by (by rewrite ?Hcode). injection Hp as <-.
      split; [done|]. intros Hl. by apply Hlock in Hl.
    + destruct (crashed w) eqn:Hc.
      * destruct (Hcr eq_refl) as [_ Hcode]. rewrite Hcode in Hstore, Hlock. cbn in Hlock.
        destruct Hstore as (-> & _). split; [done|]. split; [done|]. by apply Hlock.
      * apply (f_equal length) in Hby. rewrite length_take in Hby. cbn in Hby.
        exfalso. destruct (code th) as [|? [|? ?]] eqn:Hcode; cbn in Hby; try lia.
        -- destruct Hst as [? ?]; [cbn; lia|done].
        -- destruct Hst as [? ?]; [cbn; lia|done].
Qed.

(** Extra X9. The mutex excludes: at every reachable state at most one
    thread, watcher or caller, is between its [Lock] and its [Unlock]; the
    mutex is free exactly when no thread is; and a locked mutex has a
    holder whose next step is enabled and needs nothing from the child, so
    the mutex is never held by a thread that cannot move. *)
Theorem the_mutex_excludes launch c ow ew m0 s e m n tr w :
  Start launch c ow ew m0 = Ok ((s, e), m) ->
  goroutines m0 = [] ->
  run (boot m s n) tr w ->
  (forall t t' th th', thread_of w t = Some th -> thread_of w t' = Some th' ->
     holding (code th) = true -> holding (code th') = true -> t = t') /\
  (lock (sess w) = None <->
   forall t th, thread_of w t = Some th -> holding (code th) = false) /\
  (forall t, lock (sess w) = Some t -> crashed w = false ->
     exists ev w', step w ev w' /\ actor ev = Some t /\ process_event ev = false).
Proof.
  intros HS Hg Hrun.
  pose proof (Inv_reach _ _ _ _ _ _ _ _ _ _ _ HS Hg Hrun) as HI.
  split; [|split].
  - intros t t' th th' Ht Ht' Hh Hh'.
    apply (inv_lock _ _ HI _ _ Ht) in Hh. apply (inv_lock _ _ HI _ _ Ht') in Hh'. congruence.
  - split.
    + intros Hl t th Ht. destruct (holding (code th)) eqn:Hh; [|done].
      apply (inv_lock _ _ HI _ _ Ht) in Hh. congruence.
    + intros Hall. destruct (lock (sess w)) as [t|] eqn:Hl; [|done].
      destruct (inv_owner _ _ HI _ Hl) as [th Ht].
      apply (inv_lock _ _ HI _ _ Ht) in Hl. rewrite (Hall _ _ Ht) in Hl. done.
  - intros t Hl Hcr.
    destruct (inv_owner _ _ HI _ Hl) as [th Ht].
    pose proof Hl as Hh. apply (inv_lock _ _ HI _ _ Ht) in Hh.
    destruct (code th) as [|i rest] eqn:Hcode; [done|].
    destruct (exec_instr t i None (mach w) (sess w) (result th)) as [[ev o]|] eqn:Hexec.
    2:{ destruct i; cbn in Hexec, Hh; repeat case_match; simplify_eq. }
    exists ev, (after w t rest o). split; [|split].
    + eapply step_instr; try done. by destruct i.
    + by eapply exec_instr_actor.
    + destruct i; cbn in Hexec, Hh; repeat case_match; by simplify_eq.
Qed.









(** * Further properties of the output streams *)

Lemma offered_snoc so se sk tr e :
  offered so se sk (tr ++ [e]) = offered so se sk tr ++ offered so se sk [e].
Proof. unfold offered. by rewrite flat_map_app. Qed.

Lemma offered_other so se sk tr e :
  (forall st p, e <> EvPump st p) -> offered so se sk (tr ++ [e]) = offered so se sk tr.
Proof.
  intros He. rewrite offered_snoc.
  destruct e; cbn; rewrite ?app_nil_r; try done. by edestruct He.
Qed.

Lemma usable_sink w wrap :
  usable w = Ok wrap ->
  (wrap = false /\ sink_of w = None) \/
  (exists d, wrap = true /\ w = Some d /\ dyn_nil d = false /\ sink_of w = Some (dyn_sink d)).
Proof.
  destruct w as [d|]; [|intros [= <-]; by left].
  rewrite usable_Some. destruct (reflect.nilable (dyn_kind d)); [|done].
  intros [= <-]. cbn. destruct (dyn_nil d) eqn:Hd; [by left|right]. by exists d.
Qed.

(** Writing to the destination [Start] computed hands the chunk to the
    wired sink, and to no other; the call succeeds exactly when that sink
    takes the chunk whole. *)
Lemma write_effective_sink b w wrap p m :
  usable w = Ok wrap ->
  let '(res, m') := io.write (effective b w wrap) p m in
  reply m' = reply m /\
  (forall sk, seen m' sk = seen m sk ++ if decide (sink_of w = Some sk) then [p] else []) /\
  (succeeded res p = true ->
   forall sk, sink_of w = Some sk -> reply m sk (seen m sk) p = (length p, None)).
Proof.
  intros [[-> Hs]|(d & -> & -> & Hd & Hs)]%usable_sink.
  - cbn. rewrite Hs. split; [done|]. split; [|done].
    intros sk. unfold seen; cbn. by rewrite app_nil_r.
  - cbn -[io.sink_write sink_of]. rewrite Nat.eqb_refl. rewrite Hs.
    set (mb := log _ _).
    assert (Hmb : observed mb = observed m /\ reply mb = reply m) by done.
    destruct Hmb as [Hob Hrp]. unfold io.sink_write. unfold seen. rewrite Hob.
    destruct (reply mb (dyn_sink d) (default [] (observed m !! dyn_sink d)) p)
      as [k [err|]] eqn:Hr; rewrite Hrp in Hr.
    + cbn. split; [done|]. split; [|done].
      intros sk. destruct (decide (Some (dyn_sink d) = Some sk)) as [[= <-]|Hne].
      * by rewrite lookup_insert_eq.
      * rewrite lookup_insert_ne by congruence. by rewrite app_nil_r.
    + destruct (Nat.eqb k (length p)) eqn:Hk; cbn.
      * split; [done|]. split.
        -- intros sk. destruct (decide (Some (dyn_sink d) = Some sk)) as [[= <-]|Hne].
           ++ by rewrite lookup_insert_eq.
           ++ rewrite lookup_insert_ne by congruence. by rewrite app_nil_r.
        -- intros _ sk [= <-]. apply Nat.eqb_eq in Hk. by rewrite Hr, Hk.
      * split; [done|]. split; [|done].
        intros sk. destruct (decide (Some (dyn_sink d) = Some sk)) as [[= <-]|Hne].
        -- by rewrite lookup_insert_eq.
        -- rewrite lookup_insert_ne by congruence. by rewrite app_nil_r.
Qed.

Lemma accepted_snoc m so se tr e st (i : nat) p :
  (i < length tr)%nat ->
  accepted m so se tr st i p -> accepted m so se (tr ++ [e]) st i p.
Proof. intros Hi H sk Hsk. rewrite take_app_le by lia. by apply H. Qed.

Lemma sink_frame m so se tr w e w' :
  sink_inv m so se tr w ->
  (forall st p, e <> EvPump st p) ->
  reply (mach w') = reply (mach w) -> observed (mach w') = observed (mach w) ->
  (forall st, pump_open w' st = pump_open w st) ->
  sink_inv m so se (tr ++ [e]) w'.
Proof.
  intros (Hr & Hs & Ha) He Hr' Ho' Hp'. split; [congruence|]. split.
  - intros sk. rewrite offered_other by done. unfold seen. rewrite Ho'. apply Hs.
  - intros st Hopen i p Hi. rewrite Hp' in Hopen.
    apply lookup_snoc_Some in Hi as [[Hlt Hi]|[_ Heq]]; [|by edestruct He].
    apply accepted_snoc; [done|]. by eapply Ha.
Qed.

Lemma after_sink_frame w t rest m1 s1 r1 :
  let w' := after w t rest (Ok (m1, s1, r1)) in
  reply (mach w') = reply m1 /\ observed (mach w') = observed m1 /\
  (forall st, pump_open w' st = pump_open w st).
Proof. destruct t; cbn; by repeat split; intros []. Qed.

Lemma sink_step c out err ow ew bo be m tr w e w' :
  usable ow = Ok bo -> usable ew = Ok be ->
  capture_inv c out err (effective out ow bo) (effective err ew be) tr w ->
  sink_inv m (sink_of ow) (sink_of ew) tr w ->
  step w e w' ->
  sink_inv m (sink_of ow) (sink_of ew) (tr ++ [e]) w'.
Proof.
  intros Ho He (Hc & Hp & _) HS Hstep.
  inversion Hstep as [w0 t th i rest waited e0 o Hcr Hth Hcode Hready Hexec
                     | w0 i th Hcr Hth Hcode | w0 ws Hcr Hproc Hws
                     | w0 st dst p Hcr Hopen Hdst]; subst.
  - assert (He0 : forall st' p, e <> EvPump st' p).
    { intros st' p ->. by apply exec_instr_actor in Hexec. }
    destruct o as [[[m1 s1] r1]|why].
    + pose proof (exec_instr_frame _ _ _ _ _ _ _ _ _ _ Hexec) as (_ & _ & Hob & Hrp & _).
      destruct (after_sink_frame w t rest m1 s1 r1) as (Hr' & Ho' & Hp').
      eapply sink_frame; try done; congruence.
    + by eapply sink_frame.
  - by eapply sink_frame.
  - by eapply sink_frame.
  - unfold pump_dest in Hdst.
    destruct (cmds (mach w) !! Command (sess w)) as [cmd|]; [|done]. cbn in Hp, Hdst.
    rewrite Hp in Hdst. cbn in Hdst.
    destruct HS as (Hr & Hs & Ha).
    assert (Hw : exists wr wrap, usable wr = Ok wrap /\
                   sink_of wr = stream_sink (sink_of ow) (sink_of ew) st /\
                   exists b, dst = effective b wr wrap).
    { destruct st; injection Hdst as <-; eauto 10. }
    destruct Hw as (wr & wrap & Hu & Hsk & b & ->).
    pose proof (write_effective_sink b wr wrap p (mach w) Hu) as Hw.
    unfold sink_inv, pumped.
    destruct (io.write (effective b wr wrap) p (mach w)) as [res m1].
    destruct Hw as (Hr1 & Hs1 & Hok). cbn [mach]. split; [congruence|]. split.
    + intros sk. rewrite Hs1, Hs, offered_snoc, <- app_assoc. f_equal.
      rewrite Hsk. destruct st; cbn; by rewrite app_nil_r.
    + intros st' Hopen' i q Hi.
      apply lookup_snoc_Some in Hi as [[Hlt Hi]|[Hlen Heq]].
      * apply accepted_snoc; [done|]. eapply Ha; [|done].
        destruct st, st'; cbn in Hopen' |- *; done.
      * injection Heq as <- <-. intros sk Hsk'. rewrite Hlen.
        rewrite take_app_length. rewrite <- Hs, <- Hr. apply Hok.
        -- by destruct st.
        -- congruence.
Qed.

Lemma sink_reach launch c ow ew m0 s m n tr w :
  Start launch c ow ew m0 = Ok ((s, None), m) ->
  run (boot m s n) tr w ->
  sink_inv m (sink_of ow) (sink_of ew) tr w.
Proof.
  intros HS Hrun.
  destruct (Start_command _ _ _ _ _ _ _ _ HS) as (bo & be & cmd & Ho & He & Hc & _ & _ & H3).
  destruct (H3 eq_refl) as (_ & Hp).
  pose proof (Start_inv _ _ _ _ _ _ _ _ HS)
    as (_ & _ & _ & _ & _ & _ & Hs & _ & Hb & _ & _ & _ & _).
  assert (Hne : Out s <> Err s) by (rewrite Hs; cbn; lia).
  cut (capture_inv c (Out s) (Err s) (effective (Out s) ow bo) (effective (Err s) ew be) tr w
       /\ sink_inv m (sink_of ow) (sink_of ew) tr w).
  { by intros [_ ?]. }
  remember (boot m s n) as w0 eqn:Hw0.
  induction Hrun as [w|w tr w1 ev w2 _ IH Hstep].
  - subst w. split.
    + rewrite Hs in *. unfold capture_inv, contents. cbn in *. rewrite Hc. cbn.
      rewrite Hb, lookup_insert_eq.
      rewrite lookup_insert_ne by lia. by rewrite lookup_insert_eq.
    + split; [done|]. split; [intros sk; cbn; by rewrite app_nil_r|]. by intros st _ i p Hi.
  - destruct (IH Hw0) as [HC HK].
    split; [by eapply capture_step | by eapply sink_step].
Qed.

Lemma offered_none so se sk tr :
  so <> Some sk -> se <> Some sk -> offered so se sk tr = [].
Proof.
  intros H1 H2. unfold offered. induction tr as [|e tr IH]; [done|].
  destruct e as [| | | | | | | | |st p]; cbn; try done.
  destruct st; by rewrite decide_False by done.
Qed.

Lemma offered_out so se sk tr :
  so = Some sk -> se <> Some sk -> offered so se sk tr = chunks StdoutStream tr.
Proof.
  intros H1 H2. unfold offered, chunks. induction tr as [|e tr IH]; [done|].
  destruct e as [| | | | | | | | |st p]; cbn; try done.
  destruct st; rewrite ?decide_False, ?decide_True by done; cbn; by rewrite IH.
Qed.

Lemma offered_err so se sk tr :
  so <> Some sk -> se = Some sk -> offered so se sk tr = chunks StderrStream tr.
Proof.
  intros H1 H2. unfold offered, chunks. induction tr as [|e tr IH]; [done|].
  destruct e as [| | | | | | | | |st p]; cbn; try done.
  destruct st; rewrite ?decide_False, ?decide_True by done; cbn; by rewrite IH.
Qed.

(** Extra X8. In every execution after a successful [Start], each sink
    has been handed exactly the chunks the child produced on the streams
    wired to it, in the order they were produced, after what it had seen
    before: nothing for a sink that is wired to no stream (also when its
    writer was a nil pointer), the chunks of stdout or of stderr for a sink
    wired to one of them, and their interleaving for a sink wired to
    both. *)
Theorem sinks_see_their_streams launch c ow ew m0 s m n tr w :
  Start launch c ow ew m0 = Ok ((s, None), m) ->
  run (boot m s n) tr w ->
  forall sk,
    seen (mach w) sk = seen m0 sk ++ offered (sink_of ow) (sink_of ew) sk tr /\
    (sink_of ow <> Some sk -> sink_of ew <> Some sk -> seen (mach w) sk = seen m0 sk) /\
    (sink_of ow = Some sk -> sink_of ew <> Some sk ->
       seen (mach w) sk = seen m0 sk ++ chunks StdoutStream tr) /\
    (sink_of ow <> Some sk -> sink_of ew = Some sk ->
       seen (mach w) sk = seen m0 sk ++ chunks StderrStream tr).
Proof.
  intros HS Hrun sk.
  destruct (sink_reach _ _ _ _ _ _ _ _ _ _ HS Hrun) as (_ & Hseen & _).
  pose proof (Start_inv _ _ _ _ _ _ _ _ HS)
    as (_ & _ & _ & _ & _ & _ & _ & _ & _ & Hob & _).
  assert (Hm : seen m sk = seen m0 sk) by (unfold seen; by rewrite Hob).
  rewrite Hseen, Hm. split; [done|].
  split; [|split]; intros H1 H2.
  - by rewrite offered_none, app_nil_r.
  - by rewrite offered_out.
  - by rewrite offered_err.
Qed.

(** Extra X10. A chunk that the caller's writer refuses (with an error,
    or by taking only a part) is the last one of its stream: as long as a
    stream's pump is copying, every chunk it handed over was taken whole by
    the stream's sink, and every chunk followed by a later chunk of the same
    stream was taken whole. After a refusal no further output of that
    stream arrives anywhere, the capture buffer included. *)
Theorem a_refused_chunk_is_the_last launch c ow ew m0 s m n tr w :
  Start launch c ow ew m0 = Ok ((s, None), m) ->
  run (boot m s n) tr w ->
  (forall st i p, pump_open w st = true -> tr !! i = Some (EvPump st p) ->
     accepted m (sink_of ow) (sink_of ew) tr st i p) /\
  (forall st (i j : nat) p q,
     tr !! i = Some (EvPump st p) -> tr !! j = Some (EvPump st q) -> (i < j)%nat ->
     accepted m (sink_of ow) (sink_of ew) tr st i p).
Proof.
  intros HS Hrun. split.
  - intros st i p Hopen Hi.
    destruct (sink_reach _ _ _ _ _ _ _ _ _ _ HS Hrun) as (_ & _ & Ha). by eapply Ha.
  - intros st i j p q Hi Hj Hlt.
    destruct (run_at _ _ _ _ _ Hrun Hj) as (w1 & w2 & Hrun1 & Hstep & _).
    destruct (sink_reach _ _ _ _ _ _ _ _ _ _ HS Hrun1) as (_ & _ & Ha).
    assert (Hopen : pump_open w1 st = true).
    { inversion Hstep as [w' t' th ins rest waited e0 o Hcr Hth Hcode Hready Hexec
                         | | |]; subst; [|done].
      by apply exec_instr_actor in Hexec. }
    assert (Hi' : take j tr !! i = Some (EvPump st p)) by by apply lookup_take_Some.
    specialize (Ha _ Hopen _ _ Hi'). intros sk Hsk. specialize (Ha sk Hsk).
    rewrite take_take in Ha. by replace (i `min` j)%nat with i in Ha by lia.
Qed.

Lemma childless_step c m tr w e w' :
  childless c m tr w -> step w e w' -> childless c m (tr ++ [e]) w'.
Proof.
  intros (Hc & Hp & Hproc & Hb & Ho & Hj & Hg & Hall) Hstep.
  inversion Hstep as [w0 t th i rest waited e0 o Hcr Hth Hcode Hready Hexec
                     | w0 i th Hcr Hth Hcode | w0 ws Hcr Hpr Hws
                     | w0 st dst p Hcr Hopen Hdst]; subst.
  - destruct t as [k|k]; cbn in Hth; [by rewrite Hg in Hth|].
    assert (Hall' : Forall (fun e => exists i, actor e = Some (TCaller i)) (tr ++ [e])).
    { apply Forall_app. split; [done|]. apply Forall_singleton.
      exists k. by eapply exec_instr_actor. }
    destruct o as [[[m1 s1] r1]|why]; [|by repeat split].
    pose proof (exec_instr_frame _ _ _ _ _ _ _ _ _ _ Hexec)
      as (Hg1 & Hb1 & Ho1 & _ & Hj1 & Hc1 & _).
    pose proof (exec_instr_proc _ _ _ _ _ _ _ _ _ _ Hexec) as Hp1.
    unfold childless. cbn. rewrite Hc1, Hb1, Ho1, Hj1, Hg1.
    rewrite Hc1 in Hp1. by rewrite Hp1.
  - split; [done|]. do 6 (split; [done|]).
    apply Forall_app. split; [done|]. apply Forall_singleton. by exists i.
  - congruence.
  - unfold pump_dest in Hdst.
    destruct (cmds (mach w) !! Command (sess w)) as [cmd|]; [|done]. cbn in Hp, Hdst.
    by rewrite Hp in Hdst.
Qed.

(** Extra X11. When [Start] fails on a command that was never started,
    the failure is the operating system's, and nothing ever happens to the
    session but queries: in every execution all events are steps of callers
    inside [getExitCode], there is no child (no termination, no output),
    both capture buffers stay empty, and buffers, sinks and journal stay as
    [Start] left them. *)
Theorem failed_start_captures_nothing launch c ow ew m0 s x m n tr w :
  Start launch c ow ew m0 = Ok ((s, Some x), m) ->
  goroutines m0 = [] ->
  (cmds m0 !! c) ≫= Proc = None ->
  run (boot m s n) tr w ->
  launch = Some x /\
  Forall (fun e => exists i, actor e = Some (TCaller i)) tr /\
  proc w = PNone /\
  contents (mach w) (Out s) = [] /\ contents (mach w) (Err s) = [] /\
  bufs (mach w) = bufs m /\ observed (mach w) = observed m0 /\
  journal (mach w) = journal m.
Proof.
  intros HS Hg Hfresh Hrun.
  pose proof (Start_inv _ _ _ _ _ _ _ _ HS)
    as (cmd & bo & be & Hc & _ & _ & Hs & (cmd3 & Hx & Hc3) & Hb & Hob & _ & Hgo & _).
  rewrite Hc in Hfresh. cbn in Hfresh.
  unfold exec.Start in Hx. cbn in Hx. rewrite Hfresh in Hx.
  destruct launch as [x'|]; [|done]. injection Hx as <- <-.
  split; [done|].
  cut (childless c m tr w).
  { intros (_ & _ & Hproc & Hbufs & Hobs & Hj & _ & Hall).
    do 2 (split; [done|]). unfold contents. rewrite Hbufs, Hb, Hs. cbn.
    split; [rewrite lookup_insert_ne by lia; by rewrite lookup_insert_eq|].
    split; [by rewrite lookup_insert_eq|]. rewrite Hobs. done. }
  remember (boot m s n) as w0 eqn:Hw0.
  induction Hrun as [w|w tr w1 ev w2 _ IH Hstep].
  - subst w. unfold childless. cbn. rewrite Hs. cbn. rewrite Hc3. cbn. rewrite Hfresh.
    rewrite Hgo, Hg. by repeat split.
  - eapply childless_step; [by apply IH | done].
Qed.

(** * The claims on the test bench *)

(** Each lemma below applies a theorem above to the bench, with its
    hypotheses discharged by computation. *)

Lemma C1_exit_code_store_witness :
  exitCode bench_session = -1 /\
  (forall i t v h, trace_exit3 !! i = Some (EvRead t v h) ->
     (forall j e, (j < i)%nat -> trace_exit3 !! j = Some e -> is_write e = false) ->
     v = -1) /\
  (forall j tw vw hw i t v h,
     trace_exit3 !! j = Some (EvWrite tw vw hw) ->
     trace_exit3 !! i = Some (EvRead t v h) -> (j < i)%nat -> v = vw) /\
  (forall j tw vw hw, trace_exit3 !! j = Some (EvWrite tw vw hw) ->
     tw = TGo 0 /\
     exists ws, EvExit ws ∈ trace_exit3 /\ vw = syscall.ExitStatus ws /\
       exitCode (sess (world_after (boot (started None None None) bench_session 1)
                         schedule_exit3)) = vw) /\
  (forall j j' e e', trace_exit3 !! j = Some e -> trace_exit3 !! j' = Some e' ->
     is_write e = true -> is_write e' = true -> j = j') /\
  (written (world_after (boot (started None None None) bench_session 1)
              schedule_exit3) = true ->
   exists j e, trace_exit3 !! j = Some e /\ is_write e = true) /\
  Forall well_locked trace_exit3 /\
  ret_inv trace_exit3 /\
  (forall b t v, trace_exit3 !! b = Some (EvReturn t v) ->
     (forall j e, (j < b)%nat -> trace_exit3 !! j = Some e -> is_write e = false) ->
     v = -1) /\
  (forall j tw vw hw a b t v,
     trace_exit3 !! j = Some (EvWrite tw vw hw) ->
     trace_exit3 !! a = Some (EvCall t) -> trace_exit3 !! b = Some (EvReturn t v) ->
     (j < a < b)%nat -> v = vw).
Proof.
  apply (C1_exit_code_store None 7%nat None None bench bench_session
           (started None None None) 1 trace_exit3
           (world_after (boot (started None None None) bench_session 1) schedule_exit3)).
  - vm_compute. reflexivity.
  - reflexivity.
  - apply (perform_all_run schedule_exit3). vm_compute. reflexivity.
Defined.

Lemma C2_failed_start_witness :
  (exists cmd, cmds bench !! 7%nat = Some cmd /\
     (Proc cmd <> None /\ ErrOS 2 = ErrAlreadyStarted \/
      Proc cmd = None /\ Some (ErrOS 2) = Some (ErrOS 2))) /\
  goroutines (started (Some (ErrOS 2)) None None) = [] /\
  bench_session =
    {| Command := 7%nat; Out := next bench; Err := S (next bench);
       lock := None; exitCode := -1 |} /\
  forall n tr w, run (boot (started (Some (ErrOS 2)) None None) bench_session n) tr w ->
    goroutines (mach w) = [] /\
    exitCode (sess w) = -1 /\
    (forall i e, tr !! i = Some e -> is_write e = false) /\
    (forall i t v h, tr !! i = Some (EvRead t v h) -> v = -1) /\
    (forall i t v, tr !! i = Some (EvReturn t v) -> v = -1).
Proof.
  apply (C2_failed_start (Some (ErrOS 2)) 7%nat None None bench bench_session (ErrOS 2)
           (started (Some (ErrOS 2)) None None)).
  - vm_compute. reflexivity.
  - reflexivity.
Defined.

Lemma C3_fan_out_delivers_witness :
  exists cmd out_dst err_dst,
    cmds (started None (Some (pointer_writer 5%nat)) (Some (pointer_writer 5%nat))) !! 7%nat
      = Some cmd /\
    Stdout cmd = Some out_dst /\ Stderr cmd = Some err_dst /\
    (Some (pointer_writer 5%nat) = Some (pointer_writer 5%nat) ->
     fans_out out_dst (Out bench_session) (dyn_sink (pointer_writer 5%nat))) /\
    (Some (pointer_writer 5%nat) = Some (pointer_writer 5%nat) ->
     fans_out err_dst (Err bench_session) (dyn_sink (pointer_writer 5%nat))).
Proof.
  apply (C3_fan_out_delivers None 7%nat (Some (pointer_writer 5%nat))
           (Some (pointer_writer 5%nat)) bench bench_session None
           (started None (Some (pointer_writer 5%nat)) (Some (pointer_writer 5%nat)))
           (pointer_writer 5%nat)).
  - vm_compute. reflexivity.
  - reflexivity.
Defined.

Lemma C4_failed_wait_panics_witness :
  (exists w,
     run (boot (started None None None) bench_session 1)
       [EvWait (TGo 0) None; EvLock (TGo 0); EvPanic (TGo 0) NilDereference] w /\
     crashed w = true /\
     exitCode (sess w) = -1 /\
     lock (sess w) = Some (TGo 0) /\
     (forall e w', ~ step w e w')) /\
  (forall tr w, run (boot (started None None None) bench_session 1) tr w ->
     EvWait (TGo 0) None ∈ tr ->
     exitCode (sess w) = -1 /\
     (forall i e, tr !! i = Some e -> is_write e = false) /\
     (forall e w', step w e w' -> actor e = Some (TGo 0) ->
        e = EvLock (TGo 0) \/
        (e = EvPanic (TGo 0) NilDereference /\ crashed w' = true))).
Proof.
  apply (C4_failed_wait_panics None 7%nat None None bench bench_session
           (started None None None) 1).
  - vm_compute. reflexivity.
  - reflexivity.
Defined.

Lemma C5_capture_wired_before_start_witness :
  exists dout derr,
    journal (started None (Some (pointer_writer 5%nat)) None) = journal bench ++
      [EfNewBuffer (Out bench_session); EfNewBuffer (Err bench_session);
       EfAttachStdout 7%nat dout; EfAttachStderr 7%nat derr;
       EfStartAttempt 7%nat None] ++ [EfGo monitorForExit] /\
    head (io.dests dout) = Some (DBuffer (Out bench_session)) /\
    head (io.dests derr) = Some (DBuffer (Err bench_session)) /\
    (cmds (started None (Some (pointer_writer 5%nat)) None) !! 7%nat) ≫= Stdout = Some dout /\
    (cmds (started None (Some (pointer_writer 5%nat)) None) !! 7%nat) ≫= Stderr = Some derr /\
    (@None GoError = None ->
     (cmds (started None (Some (pointer_writer 5%nat)) None) !! 7%nat) ≫= Proc
       = Some {| pump_out := Some dout; pump_err := Some derr |} /\
     forall n tr w,
       run (boot (started None (Some (pointer_writer 5%nat)) None) bench_session n) tr w ->
       contents (mach w) (Out bench_session) = concat (chunks StdoutStream tr) /\
       contents (mach w) (Err bench_session) = concat (chunks StderrStream tr)).
Proof.
  apply (C5_capture_wired_before_start None 7%nat (Some (pointer_writer 5%nat)) None bench
           bench_session None (started None (Some (pointer_writer 5%nat)) None)).
  vm_compute. reflexivity.
Defined.

Lemma C6_typed_nil_is_absent_witness :
  Start None 7%nat (Some (nil_pointer_writer 5%nat)) None bench = Start None 7%nat None None bench /\
  Start None 7%nat None (Some (nil_pointer_writer 5%nat)) bench = Start None 7%nat None None bench /\
  (forall s e m, Start None 7%nat (Some (nil_pointer_writer 5%nat)) None bench = Ok ((s, e), m) ->
     (cmds m !! 7%nat) ≫= Stdout = Some (Single (DBuffer (Out s)))) /\
  (forall s e m, Start None 7%nat None (Some (nil_pointer_writer 5%nat)) bench = Ok ((s, e), m) ->
     (cmds m !! 7%nat) ≫= Stderr = Some (Single (DBuffer (Err s)))).
Proof.
  apply (C6_typed_nil_is_absent None 7%nat (nil_pointer_writer 5%nat) None bench);
    reflexivity.
Defined.

Lemma C9_non_nilable_writer_panics_witness :
  Start None 7%nat (Some (struct_writer 5%nat)) None bench = Panic ReflectIsNil.
Proof.
  apply (C9_non_nilable_writer_panics None 7%nat (Some (struct_writer 5%nat)) None bench
           (struct_writer 5%nat)).
  - left. reflexivity.
  - reflexivity.
Defined.

Lemma C7_query_is_a_read_under_lock_witness :
  let w := world_after (boot (started None None None) bench_session 1) schedule_exit3 in
  (forall ev w' i, step w ev w' -> actor ev = Some (TCaller i) ->
     Command (sess w') = Command (sess w) /\
     Out (sess w') = Out (sess w) /\
     Err (sess w') = Err (sess w) /\
     exitCode (sess w') = exitCode (sess w) /\
     mach w' = mach w /\
     proc w' = proc w /\
     (forall v h, ev = EvRead (TCaller i) v h ->
        v = exitCode (sess w) /\ h = Some (TCaller i) /\
        lock (sess w) = Some (TCaller i))) /\
  (forall i th, crashed w = false -> callers w !! i = Some th -> code th = [] ->
     (lock (sess w) = None ->
      exists w',
        run w [EvCall (TCaller i); EvLock (TCaller i);
               EvRead (TCaller i) (exitCode (sess w)) (Some (TCaller i));
               EvUnlock (TCaller i); EvReturn (TCaller i) (exitCode (sess w))] w' /\
        sess w' = sess w /\ mach w' = mach w /\ proc w' = proc w /\
        crashed w' = false) /\
     exists tr' w',
       run w tr' w' /\
       Forall (fun e => process_event e = false) tr' /\
       (crashed w' = true \/
        last tr' = Some (EvReturn (TCaller i) (exitCode (sess w'))))) /\
  (forall t th, thread_of w t = Some th -> lock (sess w) = Some t ->
     head (code th) <> Some IWait /\ head (code th) <> Some ILock) /\
  ret_inv trace_exit3.
Proof.
  apply (C7_query_is_a_read_under_lock None 7%nat None None bench bench_session None
           (started None None None) 1 trace_exit3).
  - vm_compute. reflexivity.
  - reflexivity.
  - apply (perform_all_run schedule_exit3). vm_compute. reflexivity.
Defined.

Lemma C8_repeated_queries_agree_witness :
  3 = 3 /\ 3 = 3 /\
  exists ws,
    proc (world_after (boot (started None None None) bench_session 1) schedule_exit3)
      = PExited ws /\
    3 = syscall.ExitStatus ws.
Proof.
  apply (C8_repeated_queries_agree None 7%nat None None bench bench_session
           (started None None None) 1 trace_exit3
           (world_after (boot (started None None None) bench_session 1) schedule_exit3)
           ltac:(vm_compute; reflexivity) eq_refl
           ltac:(apply (perform_all_run schedule_exit3); vm_compute; reflexivity)
           8%nat (TGo 0) 3 (Some (TGo 0))
           10%nat 14%nat (TCaller 0) 3 15%nat 19%nat (TCaller 0) 3);
    first [reflexivity | lia].
Defined.

Lemma C10_signal_death_reads_as_sentinel_witness :
  syscall.ExitStatus sigkill = -1 /\
  (forall j tw vw hw, trace_sigkill !! j = Some (EvWrite tw vw hw) -> vw = -1) /\
  (forall i t v h, trace_sigkill !! i = Some (EvRead t v h) -> v = -1) /\
  (forall i t v, trace_sigkill !! i = Some (EvReturn t v) -> v = -1) /\
  exitCode (sess (world_after (boot (started None None None) bench_session 1)
                    schedule_sigkill)) = -1.
Proof.
  apply (C10_signal_death_reads_as_sentinel None 7%nat None None bench bench_session
           (started None None None) 1 trace_sigkill
           (world_after (boot (started None None None) bench_session 1) schedule_sigkill)
           sigkill).
  - vm_compute. reflexivity.
  - reflexivity.
  - apply (perform_all_run schedule_sigkill). vm_compute. reflexivity.
  - apply list_elem_of_here.
  - reflexivity.
Defined.

(** ** The further properties on the test bench *)

Lemma Start_allocates_and_leaves_the_rest_witness :
  Out bench_session = next bench /\ Err bench_session = S (next bench) /\
  next (started None (Some (pointer_writer 5%nat)) None) = S (S (next bench)) /\
  Command bench_session = 7%nat /\ lock bench_session = None /\
  contents (started None (Some (pointer_writer 5%nat)) None) (Out bench_session) = [] /\
  contents (started None (Some (pointer_writer 5%nat)) None) (Err bench_session) = [] /\
  (forall b, b <> Out bench_session -> b <> Err bench_session ->
     bufs (started None (Some (pointer_writer 5%nat)) None) !! b = bufs bench !! b) /\
  (forall c', c' <> 7%nat ->
     cmds (started None (Some (pointer_writer 5%nat)) None) !! c' = cmds bench !! c') /\
  (cmds (started None (Some (pointer_writer 5%nat)) None) !! 7%nat) ≫= ProcessState
    = (cmds bench !! 7%nat) ≫= ProcessState /\
  observed (started None (Some (pointer_writer 5%nat)) None) = observed bench /\
  (exists added,
     journal (started None (Some (pointer_writer 5%nat)) None) = journal bench ++ added /\
     forallb (fun x => negb (is_io x)) added = true).
Proof.
  apply (Start_allocates_and_leaves_the_rest None 7%nat (Some (pointer_writer 5%nat)) None
           bench bench_session None (started None (Some (pointer_writer 5%nat)) None)).
  vm_compute. reflexivity.
Defined.

Lemma Start_twice_witness :
  exists s2 m2,
    Start None 7%nat (Some (pointer_writer 5%nat)) None (started None None None)
      = Ok ((s2, Some ErrAlreadyStarted), m2) /\
    goroutines m2 = goroutines (started None None None) /\
    Out s2 <> Out bench_session /\ Out s2 <> Err bench_session /\
    Err s2 <> Out bench_session /\ Err s2 <> Err bench_session /\
    contents m2 (Out bench_session) = contents (started None None None) (Out bench_session) /\
    contents m2 (Err bench_session) = contents (started None None None) (Err bench_session) /\
    (cmds m2 !! 7%nat) ≫= Proc = (cmds (started None None None) !! 7%nat) ≫= Proc /\
    (exists w, (cmds m2 !! 7%nat) ≫= Stdout = Some w /\
               head (io.dests w) = Some (DBuffer (Out s2))) /\
    (exists w, (cmds m2 !! 7%nat) ≫= Stderr = Some w /\
               head (io.dests w) = Some (DBuffer (Err s2))).
Proof.
  apply (Start_twice None None 7%nat None None (Some (pointer_writer 5%nat)) None
           bench bench_session (started None None None)).
  - vm_compute. reflexivity.
  - intros d [[= <-]|[=]]. reflexivity.
Defined.

Lemma answers_are_exit_codes_witness :
  (forall b t v, trace_exit3 !! b = Some (EvReturn t v) ->
     v = -1 \/
     exists x ws, (x < b)%nat /\ trace_exit3 !! x = Some (EvExit ws) /\
                  0 <= ws < 2 ^ 32 /\ syscall.Exited ws = true /\
                  v = Z.land (Z.shiftr ws 8) 255 /\ 0 <= v <= 255) /\
  -1 <= exitCode (sess (world_after (boot (started None None None) bench_session 1)
                          schedule_exit3)) <= 255 /\
  (forall x y ws ws', trace_exit3 !! x = Some (EvExit ws) ->
     trace_exit3 !! y = Some (EvExit ws') -> x = y) /\
  (forall i t ws, trace_exit3 !! i = Some (EvWait t (Some ws)) ->
     exists x, (x < i)%nat /\ trace_exit3 !! x = Some (EvExit ws)).
Proof.
  apply (answers_are_exit_codes None 7%nat None None bench bench_session None
           (started None None None) 1 trace_exit3
           (world_after (boot (started None None None) bench_session 1) schedule_exit3)).
  - vm_compute. reflexivity.
  - reflexivity.
  - apply (perform_all_run schedule_exit3). vm_compute. reflexivity.
Defined.

Lemma only_a_failed_wait_crashes_witness :
  (forall j t why, trace_failed_wait !! j = Some (EvPanic t why) ->
     t = TGo 0 /\ why = NilDereference /\ S j = length trace_failed_wait /\
     crashed (world_after (boot (started None None None) bench_session 1)
                schedule_failed_wait) = true /\
     exists a, (a < j)%nat /\ trace_failed_wait !! a = Some (EvWait (TGo 0) None)) /\
  (crashed (world_after (boot (started None None None) bench_session 1)
              schedule_failed_wait) = true ->
   last trace_failed_wait = Some (EvPanic (TGo 0) NilDereference)) /\
  (@None GoError <> None ->
   crashed (world_after (boot (started None None None) bench_session 1)
              schedule_failed_wait) = false) /\
  (forall ws, EvWait (TGo 0) (Some ws) ∈ trace_failed_wait ->
     crashed (world_after (boot (started None None None) bench_session 1)
                schedule_failed_wait) = false).
Proof.
  apply (only_a_failed_wait_crashes None 7%nat None None bench bench_session None
           (started None None None) 1 trace_failed_wait
           (world_after (boot (started None None None) bench_session 1)
              schedule_failed_wait)).
  - vm_compute. reflexivity.
  - reflexivity.
  - apply (perform_all_run schedule_failed_wait). vm_compute. reflexivity.
Defined.

Lemma watcher_follows_its_script_witness :
  let w := world_after (boot (started None None None) bench_session 1) schedule_exit3 in
  (forall k, k <> 0%nat -> by_thread (TGo k) trace_exit3 = []) /\
  (@None GoError <> None -> by_thread (TGo 0) trace_exit3 = []) /\
  (length (by_thread (TGo 0) trace_exit3) <= 4)%nat /\
  exists st,
    by_thread (TGo 0) trace_exit3 `prefix_of` watcher_script st /\
    (by_thread (TGo 0) trace_exit3 <> [] ->
       (cmds (mach w) !! Command (sess w)) ≫= ProcessState = st /\
       forall ws, st = Some ws -> proc w = PExited ws) /\
    (by_thread (TGo 0) trace_exit3 = watcher_script st ->
       match st with
       | Some ws => exitCode (sess w) = syscall.ExitStatus ws /\ lock (sess w) <> Some (TGo 0)
       | None => crashed w = true /\ exitCode (sess w) = -1 /\ lock (sess w) = Some (TGo 0)
       end).
Proof.
  apply (watcher_follows_its_script None 7%nat None None bench bench_session None
           (started None None None) 1 trace_exit3).
  - vm_compute. reflexivity.
  - reflexivity.
  - apply (perform_all_run schedule_exit3). vm_compute. reflexivity.
Defined.


Lemma sinks_see_their_streams_witness :
  let w := world_after (boot (started None (Some (pointer_writer 5%nat)) None) bench_session 1)
             schedule_output in
  seen (mach w) 5%nat
    = seen bench 5%nat ++ offered (sink_of (Some (pointer_writer 5%nat))) (sink_of None)
                            5%nat trace_output /\
  (sink_of (Some (pointer_writer 5%nat)) <> Some 5%nat -> sink_of None <> Some 5%nat ->
     seen (mach w) 5%nat = seen bench 5%nat) /\
  (sink_of (Some (pointer_writer 5%nat)) = Some 5%nat -> sink_of None <> Some 5%nat ->
     seen (mach w) 5%nat = seen bench 5%nat ++ chunks StdoutStream trace_output) /\
  (sink_of (Some (pointer_writer 5%nat)) <> Some 5%nat -> sink_of None = Some 5%nat ->
     seen (mach w) 5%nat = seen bench 5%nat ++ chunks StderrStream trace_output).
Proof.
  apply (sinks_see_their_streams None 7%nat (Some (pointer_writer 5%nat)) None bench
           bench_session (started None (Some (pointer_writer 5%nat)) None) 1 trace_output
           (world_after (boot (started None (Some (pointer_writer 5%nat)) None) bench_session 1)
              schedule_output)).
  - vm_compute. reflexivity.
  - apply (perform_all_run schedule_output). vm_compute. reflexivity.
Defined.

Lemma the_mutex_excludes_witness :
  let w := world_after (boot (started None None None) bench_session 1) schedule_busy in
  (forall t t' th th', thread_of w t = Some th -> thread_of w t' = Some th' ->
     holding (code th) = true -> holding (code th') = true -> t = t') /\
  (lock (sess w) = None <->
   forall t th, thread_of w t = Some th -> holding (code th) = false) /\
  (forall t, lock (sess w) = Some t -> crashed w = false ->
     exists ev w', step w ev w' /\ actor ev = Some t /\ process_event ev = false).
Proof.
  apply (the_mutex_excludes None 7%nat None None bench bench_session None
           (started None None None) 1 trace_busy).
  - vm_compute. reflexivity.
  - reflexivity.
  - apply (perform_all_run schedule_busy). vm_compute. reflexivity.
Defined.

Lemma a_refused_chunk_is_the_last_witness :
  let m := started None (Some (pointer_writer 5%nat)) None in
  let w := world_after (boot m bench_session 1) schedule_output in
  (forall st i p, pump_open w st = true -> trace_output !! i = Some (EvPump st p) ->
     accepted m (sink_of (Some (pointer_writer 5%nat))) (sink_of None) trace_output st i p) /\
  (forall st (i j : nat) p q,
     trace_output !! i = Some (EvPump st p) -> trace_output !! j = Some (EvPump st q) ->
     (i < j)%nat ->
     accepted m (sink_of (Some (pointer_writer 5%nat))) (sink_of None) trace_output st i p).
Proof.
  apply (a_refused_chunk_is_the_last None 7%nat (Some (pointer_writer 5%nat)) None bench
           bench_session (started None (Some (pointer_writer 5%nat)) None) 1 trace_output).
  - vm_compute. reflexivity.
  - apply (perform_all_run schedule_output). vm_compute. reflexivity.
Defined.

Lemma failed_start_captures_nothing_witness :
  let m := started (Some (ErrOS 2)) None None in
  let w := world_after (boot m bench_session 1) query in
  Some (ErrOS 2) = Some (ErrOS 2) /\
  Forall (fun e => exists i, actor e = Some (TCaller i)) trace_query /\
  proc w = PNone /\
  contents (mach w) (Out bench_session) = [] /\
  contents (mach w) (Err bench_session) = [] /\
  bufs (mach w) = bufs m /\ observed (mach w) = observed bench /\
  journal (mach w) = journal m.
Proof.
  apply (failed_start_captures_nothing (Some (ErrOS 2)) 7%nat None None bench bench_session
           (ErrOS 2) (started (Some (ErrOS 2)) None None) 1 trace_query).
  - vm_compute. reflexivity.
  - reflexivity.
  - reflexivity.
  - apply (perform_all_run query). vm_compute. reflexivity.
Defined.

